(** * Analytic power of a two-sided association test

    Shallow embedding of [analytic_power] from the notebooks
    [power_curve_demo.ipynb] and [simulation.ipynb]:

<<
    def analytic_power(n, maf, beta, p_thr, sigma=1.0):
        z_cut = stats.norm.isf(p_thr / 2.0)
        var_g = 2.0 * maf * (1.0 - maf)
        ncp   = beta * np.sqrt(n * var_g) / sigma
        return stats.norm.sf(z_cut - ncp) + stats.norm.cdf(-z_cut - ncp)
>>

    Finite doubles are idealised as real numbers: rounding, overflow,
    underflow and the sign of zero are not modelled.  The special values
    [inf], [-inf] and [nan], which the arithmetic and the library calls of
    the function produce on out-of-domain arguments, are modelled. *)

From Stdlib Require Import Reals Lra Lia ZArith List ClassicalEpsilon.
From Stdlib Require Import Sorted Zfloor.
Import ListNotations.
Open Scope R_scope.

(** ** Floating-point values *)

Inductive npfloat : Type :=
| Num (x : R)
| PosInf
| NegInf
| NaN.

Declare Scope npfloat_scope.
Delimit Scope npfloat_scope with fl.
Bind Scope npfloat_scope with npfloat.

Module Float.

(** An infinity of the sign of [x]; [nan] when [x] is zero. *)
Definition signed_inf (x : R) : npfloat :=
  if Rlt_dec 0 x then PosInf else if Rlt_dec x 0 then NegInf else NaN.

Definition opp (a : npfloat) : npfloat :=
  match a with
  | Num x => Num (- x)
  | PosInf => NegInf
  | NegInf => PosInf
  | NaN => NaN
  end.

Definition add (a b : npfloat) : npfloat :=
  match a, b with
  | Num x, Num y => Num (x + y)
  | NaN, _ | _, NaN => NaN
  | PosInf, NegInf | NegInf, PosInf => NaN
  | PosInf, _ | _, PosInf => PosInf
  | NegInf, _ | _, NegInf => NegInf
  end.

Definition sub (a b : npfloat) : npfloat := add a (opp b).

Definition mul (a b : npfloat) : npfloat :=
  match a, b with
  | Num x, Num y => Num (x * y)
  | NaN, _ | _, NaN => NaN
  | PosInf, Num y | Num y, PosInf => signed_inf y
  | NegInf, Num y | Num y, NegInf => signed_inf (- y)
  | PosInf, PosInf | NegInf, NegInf => PosInf
  | PosInf, NegInf | NegInf, PosInf => NegInf
  end.

(** Division with numpy's semantics: a zero divisor yields an infinity
    or [nan] (and a warning), never an exception. *)
Definition div (a b : npfloat) : npfloat :=
  match a, b with
  | Num x, Num y => if Req_dec_T y 0 then signed_inf x else Num (x / y)
  | NaN, _ | _, NaN => NaN
  | Num _, (PosInf | NegInf) => Num 0
  | PosInf, Num y => if Rlt_dec y 0 then NegInf else PosInf
  | NegInf, Num y => if Rlt_dec y 0 then PosInf else NegInf
  | (PosInf | NegInf), (PosInf | NegInf) => NaN
  end.

(** [np.sqrt]: [nan] on negative arguments (and a warning). *)
Definition sqrt (a : npfloat) : npfloat :=
  match a with
  | Num x => if Rlt_dec x 0 then NaN else Num (R_sqrt.sqrt x)
  | PosInf => PosInf
  | NegInf | NaN => NaN
  end.

(** Comparison [a <= b]; false as soon as one side is [nan]. *)
Definition le (a b : npfloat) : Prop :=
  match a, b with
  | Num x, Num y => x <= y
  | NaN, _ | _, NaN => False
  | NegInf, _ | _, PosInf => True
  | _, _ => False
  end.

End Float.

Notation "- a" := (Float.opp a) : npfloat_scope.
Infix "+" := Float.add : npfloat_scope.
Infix "-" := Float.sub : npfloat_scope.
Infix "*" := Float.mul : npfloat_scope.
Infix "/" := Float.div : npfloat_scope.
Infix "<=" := Float.le : npfloat_scope.

(** ** The standard normal distribution

    [scipy.stats.norm] is not part of the repository; its three entry
    points are modelled by what they compute: the distribution function
    of the density [exp (- t^2 / 2) / sqrt (2 * PI)], its upper tail and
    the inverse of the upper tail. *)

(** The unnormalised density [exp (- t^2 / 2)]. *)
Definition gauss (t : R) : R := exp (- (t * t) / 2).

Lemma derivable_pt_lim_gauss x : derivable_pt_lim gauss x (- x * gauss x).
Proof.
  unfold gauss.
  replace (- x * exp (- (x * x) / 2)) with (exp (- (x * x) / 2) * - x) by ring.
  apply (derivable_pt_lim_comp (fun t => - (t * t) / 2) exp).
  - replace (- x) with (- (1 * x + x * 1) / 2) by lra.
    apply (derivable_pt_lim_div_scal (fun t => - (t * t))).
    apply (derivable_pt_lim_opp (id * id)%F).
    apply derivable_pt_lim_mult; apply derivable_pt_lim_id.
  - apply derivable_pt_lim_exp.
Qed.

Lemma gauss_continuity : continuity gauss.
Proof.
  intros x. apply derivable_continuous_pt.
  exists (- x * gauss x). apply derivable_pt_lim_gauss.
Qed.

Lemma gauss_integrable a b : Riemann_integrable gauss a b.
Proof.
  destruct (Rle_dec a b) as [H|H].
  - apply continuity_implies_RiemannInt; [exact H | intros; apply gauss_continuity].
  - apply RiemannInt_P1, continuity_implies_RiemannInt;
      [lra | intros; apply gauss_continuity].
Qed.

(** The integral of [gauss] from [0] to [x]. *)
Definition gauss_int (x : R) : R := RiemannInt (gauss_integrable 0 x).

Definition gauss_int_image (y : R) : Prop := exists x, y = gauss_int x.

(** The density of the standard normal distribution. *)
Definition std_normal_pdf (x : R) : R := gauss x / sqrt (2 * PI).

(** Its distribution function: the mass below [x]. *)
Definition std_normal_cdf (x : R) : R := 1 / 2 + gauss_int x / sqrt (2 * PI).

(** Its survival function: the mass above [x]. *)
Definition std_normal_sf (x : R) : R := 1 / 2 - gauss_int x / sqrt (2 * PI).

(** Its inverse survival function: the point above which the mass is [q]. *)
Definition std_normal_isf (q : R) : R :=
  epsilon (inhabits 0) (fun z => std_normal_sf z = q).

(** [stats.norm.cdf], [stats.norm.sf] and [stats.norm.isf] on floats: the
    distribution has support on the whole line, an argument outside the
    domain gives [nan]. *)
Definition norm_cdf (a : npfloat) : npfloat :=
  match a with
  | Num x => Num (std_normal_cdf x)
  | PosInf => Num 1
  | NegInf => Num 0
  | NaN => NaN
  end.

Definition norm_sf (a : npfloat) : npfloat :=
  match a with
  | Num x => Num (std_normal_sf x)
  | PosInf => Num 0
  | NegInf => Num 1
  | NaN => NaN
  end.

Definition norm_isf (a : npfloat) : npfloat :=
  match a with
  | Num q =>
      if Rlt_dec 0 q then
        if Rlt_dec q 1 then Num (std_normal_isf q)
        else if Req_dec_T q 1 then NegInf else NaN
      else if Req_dec_T q 0 then PosInf else NaN
  | PosInf | NegInf | NaN => NaN
  end.

(** ** The function *)

Definition analytic_power (n maf beta p_thr sigma : npfloat) : npfloat :=
  let z_cut := norm_isf (p_thr / Num 2) in
  let var_g := (Num 2 * maf * (Num 1 - maf))%fl in
  let ncp := (beta * Float.sqrt (n * var_g) / sigma)%fl in
  (norm_sf (z_cut - ncp) + norm_cdf (- z_cut - ncp))%fl.

(** The non-centrality parameter computed on the way. *)
Definition ncp_of (n maf beta sigma : npfloat) : npfloat :=
  (beta * Float.sqrt (n * (Num 2 * maf * (Num 1 - maf))) / sigma)%fl.


(** ** Calls

    The body is straight-line code: it has no [raise], no branch and no
    assignment to a name outside its own frame, and the library calls
    report invalid arguments through [nan] and [inf].  A call takes the
    notebook's global frame, leaves it as it found it and completes by
    returning. *)





(** [np.arange(0.00, 0.41, 0.02)]: the 21 points [0.00, 0.02, ..., 0.40]. *)
Definition beta_grid : list npfloat :=
  map (fun i => Num (0 + INR i * (2 / 100))) (seq 0 21).






(** ** The specification's reference formula

    Section 4.1 of the specification, on real numbers, with
    [SF x = 1 - CDF x]. *)

Definition SF (x : R) : R := 1 - std_normal_cdf x.

Definition power_reference (n maf beta p_thr sigma : R) : R :=
  let z_cut := std_normal_isf (p_thr / 2) in
  let var_g := 2 * maf * (1 - maf) in
  let ncp := beta * sqrt (n * var_g) / sigma in
  SF (z_cut - ncp) + std_normal_cdf (- z_cut - ncp).

(** The specification's valid inputs. *)
Definition valid_input (n maf beta p_thr sigma : R) : Prop :=
  0 <= n /\ 0 < maf <= 1 / 2 /\ 0 < p_thr < 1 /\ 0 < sigma.

(** The inputs on which the code yields a real number. *)
Definition real_domain (n maf beta p_thr sigma : R) : Prop :=
  0 < p_thr / 2 < 1 /\ 0 <= n * maf * (1 - maf) /\ sigma <> 0.

(** ** Auxiliary functions

    They serve the proofs only: the returned sum as a function of the
    critical value and of the non-centrality parameter, and the functions
    used to evaluate the integral of [gauss] over the half line. *)

Definition two_sided_power (z ncp : R) : R :=
  std_normal_sf (z - ncp) + std_normal_cdf (- z - ncp).

(** Half of the total mass of [gauss]: the value of its integral over
    the half line (lemma [gauss_int_lub]). *)
Definition gauss_half_mass : R := sqrt (PI / 2).

(** The Riemann integral as a total operator. *)
Definition integral (f : R -> R) (a b : R) : R :=
  epsilon (inhabits 0)
    (fun v => exists pr : Riemann_integrable f a b, RiemannInt pr = v).

(** [sliced_area x] is the integral over [s] in [[0, 1]] of
    [exp (- x^2 (1 + s^2) / 2) / (1 + s^2)]; [dslice] and [d2slice] are the
    first and second derivatives of the integrand in [x], and [taylor_rest]
    is the rest of its first-order expansion. *)
Definition kern (x s : R) : R := exp (- (x * x * (1 + s * s)) / 2).
Definition slice (x s : R) : R := kern x s / (1 + s * s).
Definition dslice (x s : R) : R := - x * kern x s.
Definition d2slice (x s : R) : R := (x * x * (1 + s * s) - 1) * kern x s.
Definition sliced_area (x : R) : R := integral (slice x) 0 1.
Definition taylor_const (x : R) : R := 2 * ((Rabs x + 1) * (Rabs x + 1)) + 1.
Definition taylor_rest (x d s : R) : R :=
  slice (x + d) s - slice x s - d * dslice x s.

(** A lower bound of the mass of [gauss] above [t]. *)
Definition mills (t : R) : R := gauss t * (t / (1 + t * t)).

(** ** The grids and the second plotting cell *)

(** [np.arange(start, stop, step)] on floats: [ceil ((stop - start) / step)]
    points [start + i * step]; a zero step is an error. *)
Definition np_arange (start stop step : R) : option (list R) :=
  if Req_dec_T step 0 then None
  else Some (map (fun i => start + INR i * step)
               (seq 0 (Z.to_nat (Zceil ((stop - start) / step))))).






(** The non-centrality parameter and the returned power on real numbers. *)
Definition ncp_real (n maf beta sigma : R) : R :=
  beta * sqrt (n * (2 * maf * (1 - maf))) / sigma.

Definition power_real (n maf beta p_thr sigma : R) : R :=
  two_sided_power (std_normal_isf (p_thr / 2)) (ncp_real n maf beta sigma).

(** ** Derivatives and the mean value theorem *)

Lemma derivable_pt_lim_eq (f : R -> R) (x l l' : R) :
  l = l' -> derivable_pt_lim f x l -> derivable_pt_lim f x l'.
Proof. now intros ->. Qed.

Lemma derivable_pt_lim_local (f g : R -> R) (x l d : R) :
  0 < d -> (forall y, Rabs (y - x) < d -> f y = g y) ->
  derivable_pt_lim g x l -> derivable_pt_lim f x l.
Proof.
  intros Hd Heq Hg eps Heps.
  destruct (Hg eps Heps) as [[d0 Hd0] Hg'].
  assert (Hm : 0 < Rmin d d0) by (apply Rmin_pos; assumption).
  exists (mkposreal _ Hm). intros h Hh Hlt. simpl in *.
  rewrite !Heq.
  - apply Hg'; [exact Hh|]. eapply Rlt_le_trans; [exact Hlt | apply Rmin_r].
  - replace (x - x) with 0 by ring. rewrite Rabs_R0. exact Hd.
  - replace (x + h - x) with h by ring. eapply Rlt_le_trans; [exact Hlt | apply Rmin_l].
Qed.

Section MeanValue.
Variables f f' : R -> R.
Variables a b : R.
Hypothesis Hder : forall c, a <= c <= b -> derivable_pt_lim f c (f' c).

Lemma mvt_le : a <= b -> (forall c, a < c < b -> 0 <= f' c) -> f a <= f b.
Proof.
  intros [Hab | ->] Hpos; [|lra].
  destruct (MVT_cor2 f f' a b Hab Hder) as [c [Hc Hin]].
  specialize (Hpos c Hin). nra.
Qed.

Lemma mvt_lt : a < b -> (forall c, a < c < b -> 0 < f' c) -> f a < f b.
Proof.
  intros Hab Hpos.
  destruct (MVT_cor2 f f' a b Hab Hder) as [c [Hc Hin]].
  specialize (Hpos c Hin). nra.
Qed.

Lemma mvt_eq : a <= b -> (forall c, a < c < b -> f' c = 0) -> f b = f a.
Proof.
  intros [Hab | ->] Hz; [|lra].
  destruct (MVT_cor2 f f' a b Hab Hder) as [c [Hc Hin]].
  rewrite (Hz c Hin) in Hc. lra.
Qed.
End MeanValue.

Lemma mvt_abs_le (f f' : R -> R) (K a b : R) :
  (forall c, derivable_pt_lim f c (f' c)) ->
  (forall c, Rmin a b <= c <= Rmax a b -> Rabs (f' c) <= K) ->
  Rabs (f b - f a) <= K * Rabs (b - a).
Proof.
  intros Hd HK.
  destruct (Rtotal_order a b) as [Hlt | [-> | Hgt]].
  - destruct (MVT_cor2 f f' a b Hlt (fun c _ => Hd c)) as [c [Hc Hin]].
    rewrite Hc, Rabs_mult. apply Rmult_le_compat_r; [apply Rabs_pos|].
    apply HK. rewrite Rmin_left, Rmax_right; lra.
  - replace (f b - f b) with 0 by ring. replace (b - b) with 0 by ring.
    rewrite Rabs_R0. lra.
  - destruct (MVT_cor2 f f' b a Hgt (fun c _ => Hd c)) as [c [Hc Hin]].
    rewrite (Rabs_minus_sym (f b)), (Rabs_minus_sym b), Hc, Rabs_mult.
    apply Rmult_le_compat_r; [apply Rabs_pos|].
    apply HK. rewrite Rmin_right, Rmax_left; lra.
Qed.

(** ** Integrals of continuous functions *)

Lemma integral_eq f a b (pr : Riemann_integrable f a b) :
  integral f a b = RiemannInt pr.
Proof.
  unfold integral.
  assert (Hex : exists v, exists pr' : Riemann_integrable f a b, RiemannInt pr' = v)
    by (exists (RiemannInt pr); now exists pr).
  destruct (epsilon_spec (inhabits 0) _ Hex) as [pr' Hpr'].
  rewrite <- Hpr'. apply RiemannInt_P5.
Qed.

Section ContinuousIntegrand.
Variable f : R -> R.
Hypothesis f_cont : continuity f.

Lemma cont_integrable a b : Riemann_integrable f a b.
Proof.
  destruct (Rle_dec a b) as [H|H].
  - apply continuity_implies_RiemannInt; [exact H | intros; apply f_cont].
  - apply RiemannInt_P1, continuity_implies_RiemannInt;
      [lra | intros; apply f_cont].
Qed.

Lemma integral_same a : integral f a a = 0.
Proof. rewrite (integral_eq f a a (cont_integrable a a)). apply RiemannInt_P9. Qed.

Lemma integral_chasles a b c :
  integral f a b + integral f b c = integral f a c.
Proof.
  rewrite (integral_eq f a b (cont_integrable a b)),
    (integral_eq f b c (cont_integrable b c)),
    (integral_eq f a c (cont_integrable a c)).
  apply RiemannInt_P26.
Qed.

Lemma derivable_pt_lim_integral a x :
  derivable_pt_lim (integral f a) x (f x).
Proof.
  set (l := x - 1). set (u := x + 1).
  assert (h : l <= u) by (unfold l, u; lra).
  assert (C0 : forall y, l <= y <= u -> continuity_pt f y)
    by (intros; apply f_cont).
  assert (Hx : l < x < u) by (unfold l, u; lra).
  pose proof (RiemannInt_P27 h C0 Hx) as HP.
  apply (derivable_pt_lim_local (integral f a)
           (fun y => primitive h (FTC_P1 h C0) y - integral f l a) x _ 1).
  - lra.
  - intros y Hy.
    assert (Hy' : l <= y <= u).
    { unfold l, u. apply Rabs_def2 in Hy. lra. }
    unfold primitive.
    destruct (Rle_dec l y) as [r|n]; [|lra].
    destruct (Rle_dec y u) as [r0|n]; [|lra].
    rewrite <- (integral_eq f l y (FTC_P1 h C0 r r0)).
    rewrite <- (integral_chasles l a y). ring.
  - replace (f x) with (f x - 0) by ring.
    apply derivable_pt_lim_minus; [exact HP | apply derivable_pt_lim_const].
Qed.

(** The integral of a derivative. *)
Lemma integral_of_derivative (F : R -> R) a b :
  a <= b -> (forall t, derivable_pt_lim F t (f t)) ->
  integral f a b = F b - F a.
Proof.
  intros Hab HF.
  enough (E : (fun t => integral f a t - F t) b =
              (fun t => integral f a t - F t) a)
    by (cbv beta in E; rewrite integral_same in E; lra).
  apply (mvt_eq (fun t => integral f a t - F t) (fun t => f t - f t) a b);
    [|exact Hab|intros; ring].
  intros c _. apply derivable_pt_lim_minus;
    [apply derivable_pt_lim_integral | apply HF].
Qed.
End ContinuousIntegrand.

Lemma integral_le (f g : R -> R) a b :
  continuity f -> continuity g -> a <= b ->
  (forall t, a <= t <= b -> f t <= g t) ->
  integral f a b <= integral g a b.
Proof.
  intros Hf Hg Hab Hle.
  enough (E : (fun t => integral g a t - integral f a t) a <=
              (fun t => integral g a t - integral f a t) b)
    by (cbv beta in E; rewrite !integral_same in E by assumption; lra).
  apply (mvt_le (fun t => integral g a t - integral f a t)
           (fun t => g t - f t) a b); [|exact Hab|].
  - intros c _. apply derivable_pt_lim_minus; now apply derivable_pt_lim_integral.
  - intros c Hc. assert (Hc' : a <= c <= b) by lra. specialize (Hle c Hc'). lra.
Qed.

Lemma fct_cte_continuity c : continuity (fct_cte c).
Proof. apply continuity_const. intros x y. reflexivity. Qed.

Lemma integral_const c a b : a <= b -> integral (fct_cte c) a b = c * (b - a).
Proof.
  intros Hab.
  rewrite (integral_of_derivative (fct_cte c) (fct_cte_continuity c)
             (fun t => c * t) a b Hab).
  - ring.
  - intros t. apply derivable_pt_lim_eq with (c * 1); [unfold fct_cte; ring|].
    apply (derivable_pt_lim_scal id c t 1), derivable_pt_lim_id.
Qed.

(** ** The integral of [gauss] *)

Lemma gauss_pos t : 0 < gauss t.
Proof. apply exp_pos. Qed.

Lemma gauss_even t : gauss (- t) = gauss t.
Proof. unfold gauss. f_equal. lra. Qed.

Lemma gauss_le_1 t : gauss t <= 1.
Proof.
  unfold gauss. rewrite <- exp_0.
  destruct (Req_dec t 0) as [->|Hn].
  - right. f_equal. lra.
  - left. apply exp_increasing. nra.
Qed.

Lemma gauss_int_integral x : gauss_int x = integral gauss 0 x.
Proof. unfold gauss_int. symmetry. apply integral_eq. Qed.

Lemma gauss_int_0 : gauss_int 0 = 0.
Proof. rewrite gauss_int_integral. apply integral_same, gauss_continuity. Qed.

Lemma derivable_pt_lim_gauss_int x : derivable_pt_lim gauss_int x (gauss x).
Proof.
  apply (derivable_pt_lim_ext (integral gauss 0)).
  - intros z. symmetry. apply gauss_int_integral.
  - apply derivable_pt_lim_integral, gauss_continuity.
Qed.

(** Comparison of the integral with an explicit antiderivative. *)
Lemma gauss_int_le_prim (G g : R -> R) (a b : R) :
  a <= b ->
  (forall c, a <= c <= b -> derivable_pt_lim G c (g c)) ->
  (forall c, a < c < b -> gauss c <= g c) ->
  gauss_int b - gauss_int a <= G b - G a.
Proof.
  intros Hab HG Hle.
  enough (G a - gauss_int a <= G b - gauss_int b) by lra.
  apply (mvt_le (fun t => G t - gauss_int t) (fun t => g t - gauss t) a b); auto.
  - intros c Hc. apply derivable_pt_lim_minus; [auto | apply derivable_pt_lim_gauss_int].
  - intros c Hc. specialize (Hle c Hc). lra.
Qed.

Lemma gauss_int_ge_prim (G g : R -> R) (a b : R) :
  a <= b ->
  (forall c, a <= c <= b -> derivable_pt_lim G c (g c)) ->
  (forall c, a < c < b -> g c <= gauss c) ->
  G b - G a <= gauss_int b - gauss_int a.
Proof.
  intros Hab HG Hle.
  enough (gauss_int a - G a <= gauss_int b - G b) by lra.
  apply (mvt_le (fun t => gauss_int t - G t) (fun t => gauss t - g t) a b); auto.
  - intros c Hc. apply derivable_pt_lim_minus; [apply derivable_pt_lim_gauss_int | auto].
  - intros c Hc. specialize (Hle c Hc). lra.
Qed.

Lemma gauss_int_incr x y : x < y -> gauss_int x < gauss_int y.
Proof.
  intros Hxy.
  apply (mvt_lt gauss_int gauss x y); auto.
  - intros; apply derivable_pt_lim_gauss_int.
  - intros; apply gauss_pos.
Qed.

Lemma gauss_int_mono x y : x <= y -> gauss_int x <= gauss_int y.
Proof.
  intros [H | ->]; [left; now apply gauss_int_incr | lra].
Qed.

Lemma derivable_pt_lim_gauss_int_opp x :
  derivable_pt_lim (fun t => gauss_int (- t)) x (- gauss x).
Proof.
  replace (- gauss x) with (gauss (- x) * - 1) by (rewrite gauss_even; ring).
  apply (derivable_pt_lim_comp (fun t => - t) gauss_int).
  - apply (derivable_pt_lim_opp id). apply derivable_pt_lim_id.
  - apply derivable_pt_lim_gauss_int.
Qed.

Lemma gauss_int_odd x : gauss_int (- x) = - gauss_int x.
Proof.
  assert (H : forall a b, a <= b ->
            gauss_int b + gauss_int (- b) = gauss_int a + gauss_int (- a)).
  { intros a b Hab.
    apply (mvt_eq (fun t => gauss_int t + gauss_int (- t))
                  (fun t => gauss t + - gauss t) a b); auto.
    - intros c _. apply derivable_pt_lim_plus;
        [apply derivable_pt_lim_gauss_int | apply derivable_pt_lim_gauss_int_opp].
    - intros; ring. }
  destruct (Rle_dec 0 x) as [Hx | Hx].
  - specialize (H 0 x Hx). rewrite Ropp_0, gauss_int_0 in H. lra.
  - assert (Hx' : x <= 0) by lra.
    specialize (H x 0 Hx'). rewrite Ropp_0, gauss_int_0 in H. lra.
Qed.

Lemma gauss_int_nonneg x : 0 <= x -> 0 <= gauss_int x.
Proof. intros H. rewrite <- gauss_int_0. now apply gauss_int_mono. Qed.

Lemma gauss_int_pos x : 0 < x -> 0 < gauss_int x.
Proof. intros H. rewrite <- gauss_int_0. now apply gauss_int_incr. Qed.

Lemma gauss_int_le_id x : 0 <= x -> gauss_int x <= x.
Proof.
  intros Hx.
  pose proof (gauss_int_le_prim id (fct_cte 1) 0 x Hx) as H.
  rewrite gauss_int_0 in H. unfold id in H.
  enough (gauss_int x - 0 <= x - 0) by lra.
  apply H.
  - intros; apply derivable_pt_lim_id.
  - intros; apply gauss_le_1.
Qed.

Lemma gauss_ge_parabola t : 1 - t * t / 2 <= gauss t.
Proof.
  unfold gauss.
  pose proof (exp_ineq1_le (- (t * t) / 2)). lra.
Qed.

Lemma derivable_pt_lim_cubic x :
  derivable_pt_lim (fun t => t - t * t * t / 6) x (1 - x * x / 2).
Proof.
  apply (derivable_pt_lim_minus id (fun t => t * t * t / 6) x 1 (x * x / 2)).
  - apply derivable_pt_lim_id.
  - apply derivable_pt_lim_eq with (INR 3 * x ^ pred 3 / 6); [simpl; field|].
    apply (derivable_pt_lim_ext (fun y => y ^ 3 / 6)); [intros; field|].
    apply derivable_pt_lim_div_scal, derivable_pt_lim_pow.
Qed.

Lemma gauss_int_ge_cubic x : 0 <= x -> x - x * x * x / 6 <= gauss_int x.
Proof.
  intros Hx.
  pose proof (gauss_int_ge_prim (fun t => t - t * t * t / 6)
                (fun t => 1 - t * t / 2) 0 x Hx) as H.
  rewrite gauss_int_0 in H.
  enough (x - x * x * x / 6 - (0 - 0 * 0 * 0 / 6) <= gauss_int x - 0) by lra.
  apply H.
  - intros; apply derivable_pt_lim_cubic.
  - intros; apply gauss_ge_parabola.
Qed.

Lemma gauss_decr x y : 0 <= x <= y -> gauss y <= gauss x.
Proof.
  intros [Hx Hxy]. unfold gauss.
  destruct (Req_dec x y) as [->|Hn]; [lra|].
  left. apply exp_increasing. nra.
Qed.

(** Upper tail: for [0 < x <= y] the mass between [x] and [y] is at most
    [gauss x / x], since [gauss t <= (t / x) * gauss t] there. *)
Lemma gauss_int_tail_le x y : 0 < x -> x <= y ->
  gauss_int y - gauss_int x <= gauss x / x.
Proof.
  intros Hx Hxy.
  pose proof (gauss_int_le_prim (fun t => / x * - gauss t)
                (fun t => / x * - (- t * gauss t)) x y Hxy) as H.
  assert (Hix : 0 < / x) by now apply Rinv_0_lt_compat.
  assert (gauss_int y - gauss_int x <= / x * - gauss y - / x * - gauss x).
  { apply H.
    - intros c _. apply derivable_pt_lim_scal.
      apply (derivable_pt_lim_opp gauss). apply derivable_pt_lim_gauss.
    - intros c Hc. pose proof (gauss_pos c).
      replace (/ x * - (- c * gauss c)) with ((c * / x) * gauss c) by ring.
      assert (1 <= c * / x).
      { apply Rmult_le_reg_r with x; [lra|]. rewrite Rmult_assoc, Rinv_l; lra. }
      nra. }
  pose proof (gauss_pos y). unfold Rdiv. nra.
Qed.

(** ** The value of the Gaussian integral

    [gauss_int x ^ 2 / 2 + sliced_area x] has derivative zero, is [PI / 4]
    at [0], and [sliced_area x] tends to [0]: the integral of [gauss] over
    the half line is [sqrt (PI / 2)], so that [gauss x / sqrt (2 * PI)] is
    a probability density. *)

Lemma kern_pos x s : 0 < kern x s.
Proof. apply exp_pos. Qed.

Lemma kern_le_gauss x s : kern x s <= gauss x.
Proof.
  unfold kern, gauss.
  destruct (Rle_lt_or_eq_dec (- (x * x * (1 + s * s)) / 2) (- (x * x) / 2)) as [H | H].
  - nra.
  - left. now apply exp_increasing.
  - rewrite H. lra.
Qed.

Lemma kern_le_1 x s : kern x s <= 1.
Proof. eapply Rle_trans; [apply kern_le_gauss | apply gauss_le_1]. Qed.

Lemma kern_split x s : kern x s = gauss x * gauss (x * s).
Proof. unfold kern, gauss. rewrite <- exp_plus. f_equal. field. Qed.

Lemma derivable_pt_lim_kern s x :
  derivable_pt_lim (fun t => kern t s) x (- x * (1 + s * s) * kern x s).
Proof.
  unfold kern.
  apply derivable_pt_lim_eq with
    (exp (- (x * x * (1 + s * s)) / 2) * (- ((1 * x + x * 1) * (1 + s * s)) / 2));
    [field|].
  apply (derivable_pt_lim_comp (fun t => - (t * t * (1 + s * s)) / 2) exp).
  - apply (derivable_pt_lim_div_scal (fun t => - (t * t * (1 + s * s)))).
    apply (derivable_pt_lim_opp (fun t => t * t * (1 + s * s))).
    apply (derivable_pt_lim_scal_right (id * id)%F).
    apply derivable_pt_lim_mult; apply derivable_pt_lim_id.
  - apply derivable_pt_lim_exp.
Qed.

Lemma one_plus_sqr_pos s : 0 < 1 + s * s.
Proof. nra. Qed.

Lemma derivable_pt_lim_slice s x :
  derivable_pt_lim (fun t => slice t s) x (dslice x s).
Proof.
  unfold slice, dslice.
  apply derivable_pt_lim_eq with (- x * (1 + s * s) * kern x s / (1 + s * s)).
  { pose proof (one_plus_sqr_pos s). field. lra. }
  apply (derivable_pt_lim_div_scal (fun t => kern t s)), derivable_pt_lim_kern.
Qed.

Lemma derivable_pt_lim_dslice s x :
  derivable_pt_lim (fun t => dslice t s) x (d2slice x s).
Proof.
  unfold dslice, d2slice.
  apply derivable_pt_lim_eq with
    (- 1 * kern x s + - x * (- x * (1 + s * s) * kern x s)); [ring|].
  apply (derivable_pt_lim_mult (fun t => - t) (fun t => kern t s)).
  - apply (derivable_pt_lim_opp id), derivable_pt_lim_id.
  - apply derivable_pt_lim_kern.
Qed.

(** Continuity in the second variable. *)
Lemma kern_continuity x : continuity (kern x).
Proof.
  intros s. apply derivable_continuous_pt.
  exists (kern x s * (- (x * x * (0 + (1 * s + s * 1))) / 2)).
  unfold kern.
  apply (derivable_pt_lim_comp (fun t => - (x * x * (1 + t * t)) / 2) exp).
  - apply (derivable_pt_lim_div_scal (fun t => - (x * x * (1 + t * t)))).
    apply (derivable_pt_lim_opp (fun t => x * x * (1 + t * t))).
    apply (derivable_pt_lim_scal (fun t => 1 + t * t) (x * x)).
    apply (derivable_pt_lim_plus (fct_cte 1) (id * id)%F).
    + apply derivable_pt_lim_const.
    + apply derivable_pt_lim_mult; apply derivable_pt_lim_id.
  - apply derivable_pt_lim_exp.
Qed.

Lemma slice_continuity x : continuity (slice x).
Proof.
  intros s. unfold slice.
  apply (continuity_pt_div (kern x) (fun t => 1 + t * t)).
  - apply kern_continuity.
  - apply (continuity_pt_plus (fct_cte 1) (id * id)%F).
    + apply continuity_pt_const. intros u v. reflexivity.
    + apply continuity_pt_mult; apply derivable_continuous_pt, derivable_pt_id.
  - cbv beta. pose proof (one_plus_sqr_pos s). lra.
Qed.

Lemma dslice_continuity x : continuity (dslice x).
Proof.
  intros s. unfold dslice.
  apply (continuity_pt_scal (kern x) (- x)), kern_continuity.
Qed.

Lemma d2slice_bound x s : 0 <= s <= 1 -> Rabs (d2slice x s) <= 2 * (x * x) + 1.
Proof.
  intros Hs. unfold d2slice. rewrite Rabs_mult.
  rewrite (Rabs_pos_eq (kern x s)) by (left; apply kern_pos).
  pose proof (kern_pos x s). pose proof (kern_le_1 x s).
  assert (Rabs (x * x * (1 + s * s) - 1) <= 2 * (x * x) + 1).
  { assert (0 <= x * x) by nra. assert (0 <= s * s <= 1) by nra.
    assert (0 <= x * x * (s * s) <= x * x) by nra.
    apply Rabs_le. split; lra. }
  pose proof (Rabs_pos (x * x * (1 + s * s) - 1)). nra.
Qed.

Lemma between_abs x d c :
  Rabs d <= 1 -> Rmin x (x + d) <= c <= Rmax x (x + d) ->
  Rabs (c - x) <= Rabs d /\ c * c <= (Rabs x + 1) * (Rabs x + 1).
Proof.
  intros Hd Hc.
  assert (H1 : Rabs (c - x) <= Rabs d).
  { unfold Rmin, Rmax in Hc. destruct (Rle_dec x (x + d)).
    - rewrite (Rabs_pos_eq d) by lra. rewrite Rabs_pos_eq; lra.
    - rewrite (Rabs_left d) by lra. rewrite Rabs_left1; lra. }
  split; [exact H1|].
  assert (Rabs c <= Rabs x + 1).
  { replace c with (x + (c - x)) by ring.
    eapply Rle_trans; [apply Rabs_triang|]. lra. }
  pose proof (Rabs_pos c). pose proof (Rabs_pos x).
  replace (c * c) with (Rabs c * Rabs c).
  - nra.
  - rewrite <- Rabs_mult. apply Rabs_pos_eq. nra.
Qed.

Lemma slice_taylor x d s :
  Rabs d <= 1 -> 0 <= s <= 1 ->
  Rabs (slice (x + d) s - slice x s - d * dslice x s) <= taylor_const x * (d * d).
Proof.
  intros Hd Hs.
  pose proof (Rabs_pos d) as Hd0.
  assert (HM : 0 <= taylor_const x).
  { unfold taylor_const. pose proof (Rabs_pos x). nra. }
  (* first order: the derivative moves by at most [taylor_const x * |d|] *)
  assert (Hlip : forall c, Rmin x (x + d) <= c <= Rmax x (x + d) ->
                   Rabs (dslice c s - dslice x s) <= taylor_const x * Rabs d).
  { intros c Hc.
    destruct (between_abs x d c Hd Hc) as [Hcx Hcc].
    eapply Rle_trans.
    - apply (mvt_abs_le (fun t => dslice t s) (fun t => d2slice t s)
               (taylor_const x) x c).
      + intros t. apply derivable_pt_lim_dslice.
      + intros t Ht.
        assert (Ht' : Rmin x (x + d) <= t <= Rmax x (x + d)).
        { unfold Rmin, Rmax in *.
          destruct (Rle_dec x c), (Rle_dec x (x + d)); lra. }
        destruct (between_abs x d t Hd Ht') as [_ Htt].
        eapply Rle_trans; [apply d2slice_bound; exact Hs|].
        unfold taylor_const. lra.
    - apply Rmult_le_compat_l; assumption. }
  replace (slice (x + d) s - slice x s - d * dslice x s)
    with ((fun t => slice t s - t * dslice x s) (x + d) -
          (fun t => slice t s - t * dslice x s) x) by (cbv beta; ring).
  replace (d * d) with (Rabs d * Rabs d).
  2:{ rewrite <- Rabs_mult. apply Rabs_pos_eq. nra. }
  replace (Rabs d) with (Rabs (x + d - x)) at 2 by (f_equal; ring).
  rewrite <- Rmult_assoc.
  apply (mvt_abs_le (fun t => slice t s - t * dslice x s)
           (fun t => dslice t s - 1 * dslice x s)).
  - intros c. apply derivable_pt_lim_minus.
    + apply derivable_pt_lim_slice.
    + apply (derivable_pt_lim_scal_right id), derivable_pt_lim_id.
  - intros c Hc. rewrite Rmult_1_l. now apply Hlip.
Qed.
Lemma taylor_rest_continuity x d : continuity (taylor_rest x d).
Proof.
  intros s. unfold taylor_rest.
  apply (continuity_pt_minus (fun t => slice (x + d) t - slice x t)
           (fun t => d * dslice x t)).
  - apply (continuity_pt_minus (slice (x + d)) (slice x)); apply slice_continuity.
  - apply (continuity_pt_scal (dslice x) d), dslice_continuity.
Qed.

Lemma integral_taylor_rest x d :
  integral (taylor_rest x d) 0 1 =
  sliced_area (x + d) - sliced_area x - d * integral (dslice x) 0 1.
Proof.
  rewrite (integral_of_derivative (taylor_rest x d) (taylor_rest_continuity x d)
             (fun t => integral (slice (x + d)) 0 t - integral (slice x) 0 t
                       - d * integral (dslice x) 0 t) 0 1); [|lra|].
  - rewrite !integral_same
      by first [apply slice_continuity | apply dslice_continuity].
    unfold sliced_area. ring.
  - intros t. unfold taylor_rest.
    apply (derivable_pt_lim_minus
             (fun t => integral (slice (x + d)) 0 t - integral (slice x) 0 t)
             (fun t => d * integral (dslice x) 0 t)).
    + apply (derivable_pt_lim_minus (integral (slice (x + d)) 0)
               (integral (slice x) 0));
        apply derivable_pt_lim_integral, slice_continuity.
    + apply (derivable_pt_lim_scal (integral (dslice x) 0) d).
      apply derivable_pt_lim_integral, dslice_continuity.
Qed.

Lemma sliced_area_taylor x d :
  Rabs d <= 1 ->
  Rabs (sliced_area (x + d) - sliced_area x - d * integral (dslice x) 0 1)
  <= taylor_const x * (d * d).
Proof.
  intros Hd. rewrite <- integral_taylor_rest.
  set (K := taylor_const x * (d * d)).
  apply Rabs_le. split.
  - apply Rle_trans with (integral (fct_cte (- K)) 0 1);
      [rewrite integral_const; lra|].
    apply integral_le; [apply fct_cte_continuity | apply taylor_rest_continuity
                       | lra |].
    intros t Ht. pose proof (slice_taylor x d t Hd Ht) as H.
    fold (taylor_rest x d t) in H. fold K in H.
    unfold fct_cte.
    pose proof (Rle_abs (- taylor_rest x d t)) as H1.
    rewrite Rabs_Ropp in H1. lra.
  - apply Rle_trans with (integral (fct_cte K) 0 1);
      [|rewrite integral_const; lra].
    apply integral_le; [apply taylor_rest_continuity | apply fct_cte_continuity
                       | lra |].
    intros t Ht. pose proof (slice_taylor x d t Hd Ht) as H.
    fold (taylor_rest x d t) in H. fold K in H.
    unfold fct_cte. pose proof (Rle_abs (taylor_rest x d t)). lra.
Qed.

(** Differentiation under the integral sign. *)
Lemma derivable_pt_lim_sliced_area x :
  derivable_pt_lim sliced_area x (integral (dslice x) 0 1).
Proof.
  intros eps Heps.
  assert (HM : 0 < taylor_const x + 1).
  { unfold taylor_const. pose proof (Rabs_pos x). nra. }
  assert (Hdel : 0 < Rmin 1 (eps / (taylor_const x + 1))).
  { apply Rmin_pos; [lra | now apply Rdiv_lt_0_compat]. }
  exists (mkposreal _ Hdel). cbn. intros h Hh Hlt.
  assert (Hh1 : Rabs h <= 1).
  { left. eapply Rlt_le_trans; [exact Hlt | apply Rmin_l]. }
  assert (Hh2 : Rabs h < eps / (taylor_const x + 1)).
  { eapply Rlt_le_trans; [exact Hlt | apply Rmin_r]. }
  pose proof (sliced_area_taylor x h Hh1) as HT.
  assert (Hpos : 0 < Rabs h) by now apply Rabs_pos_lt.
  replace ((sliced_area (x + h) - sliced_area x) / h - integral (dslice x) 0 1)
    with ((sliced_area (x + h) - sliced_area x - h * integral (dslice x) 0 1) / h)
    by (field; exact Hh).
  unfold Rdiv. rewrite Rabs_mult, Rabs_inv.
  apply Rmult_lt_reg_r with (Rabs h); [exact Hpos|].
  rewrite Rmult_assoc, Rinv_l, Rmult_1_r by lra.
  eapply Rle_lt_trans; [exact HT|].
  replace (h * h) with (Rabs h * Rabs h).
  2:{ rewrite <- Rabs_mult. apply Rabs_pos_eq. nra. }
  rewrite <- Rmult_assoc.
  apply Rmult_lt_compat_r; [exact Hpos|].
  apply Rle_lt_trans with ((taylor_const x + 1) * Rabs h); [nra|].
  apply Rmult_lt_reg_l with (/ (taylor_const x + 1));
    [now apply Rinv_0_lt_compat|].
  rewrite <- Rmult_assoc, Rinv_l, Rmult_1_l by lra.
  unfold Rdiv in Hh2. lra.
Qed.

Lemma integral_dslice x : integral (dslice x) 0 1 = - gauss x * gauss_int x.
Proof.
  rewrite (integral_of_derivative (dslice x) (dslice_continuity x)
             (fun t => - gauss x * gauss_int (x * t)) 0 1); [|lra|].
  - rewrite Rmult_1_r, Rmult_0_r, gauss_int_0. ring.
  - intros t. unfold dslice. rewrite kern_split.
    apply derivable_pt_lim_eq with (- gauss x * (gauss (x * t) * (x * 1)));
      [ring|].
    apply (derivable_pt_lim_scal (fun u => gauss_int (x * u)) (- gauss x)).
    apply (derivable_pt_lim_comp (fun u => x * u) gauss_int).
    + apply (derivable_pt_lim_scal id x t 1), derivable_pt_lim_id.
    + apply derivable_pt_lim_gauss_int.
Qed.

Lemma sliced_area_0 : sliced_area 0 = PI / 4.
Proof.
  unfold sliced_area.
  rewrite (integral_of_derivative (slice 0) (slice_continuity 0) atan 0 1);
    [|lra|].
  - rewrite atan_1, atan_0. ring.
  - intros t. apply derivable_pt_lim_eq with (/ (1 + t ^ 2)).
    + unfold slice, kern.
      replace (- (0 * 0 * (1 + t * t)) / 2) with 0 by field.
      rewrite exp_0. unfold Rdiv. rewrite Rmult_1_l. f_equal. ring.
    + apply derivable_pt_lim_atan.
Qed.

Lemma sliced_area_bounds x : 0 <= sliced_area x <= gauss x.
Proof.
  unfold sliced_area. split.
  - apply Rle_trans with (integral (fct_cte 0) 0 1);
      [rewrite integral_const; lra|].
    apply integral_le; [apply fct_cte_continuity | apply slice_continuity | lra |].
    intros t _. unfold fct_cte, slice. left.
    apply Rdiv_lt_0_compat; [apply kern_pos | apply one_plus_sqr_pos].
  - apply Rle_trans with (integral (fct_cte (gauss x)) 0 1);
      [|rewrite integral_const; lra].
    apply integral_le; [apply slice_continuity | apply fct_cte_continuity | lra |].
    intros t _. unfold fct_cte, slice.
    pose proof (kern_le_gauss x t). pose proof (kern_pos x t).
    pose proof (one_plus_sqr_pos t).
    apply Rmult_le_reg_r with (1 + t * t); [assumption|].
    unfold Rdiv. rewrite Rmult_assoc, Rinv_l by lra. nra.
Qed.

(** The square of the partial integral and the sliced area add up to a
    constant. *)
Lemma gauss_int_sqr x :
  gauss_int x * gauss_int x = PI / 2 - 2 * sliced_area x.
Proof.
  assert (Hd : forall t, derivable_pt_lim
                 (fun u => gauss_int u * gauss_int u / 2 + sliced_area u) t
                 ((fun _ => 0) t)).
  { intros t. cbv beta.
    apply derivable_pt_lim_eq with
      ((gauss t * gauss_int t + gauss_int t * gauss t) / 2
       + integral (dslice t) 0 1).
    { rewrite integral_dslice. field. }
    apply (derivable_pt_lim_plus (fun u => gauss_int u * gauss_int u / 2)
             sliced_area).
    - apply (derivable_pt_lim_div_scal (gauss_int * gauss_int)%F).
      apply derivable_pt_lim_mult; apply derivable_pt_lim_gauss_int.
    - apply derivable_pt_lim_sliced_area. }
  assert (E : gauss_int x * gauss_int x / 2 + sliced_area x =
              gauss_int 0 * gauss_int 0 / 2 + sliced_area 0).
  { destruct (Rle_dec 0 x) as [Hx | Hx].
    - apply (mvt_eq _ (fun _ => 0) 0 x (fun c _ => Hd c) Hx). reflexivity.
    - symmetry.
      assert (Hx' : x <= 0) by lra.
      apply (mvt_eq _ (fun _ => 0) x 0 (fun c _ => Hd c) Hx'). reflexivity. }
  rewrite gauss_int_0, sliced_area_0 in E. lra.
Qed.

Lemma gauss_le_inv x : 0 < x -> gauss x < / x.
Proof.
  intros Hx. unfold gauss.
  replace (- (x * x) / 2) with (- (x * x / 2)) by field.
  rewrite exp_Ropp. apply Rinv_lt_contravar.
  - apply Rmult_lt_0_compat; [exact Hx | apply exp_pos].
  - pose proof (exp_ineq1_le (x * x / 2)).
    pose proof (Rle_0_sqr (x - 1)) as Hsq. unfold Rsqr in Hsq.
    replace ((x - 1) * (x - 1)) with (x * x - 2 * x + 1) in Hsq by ring.
    lra.
Qed.

(** The Gaussian integral: the partial integrals increase to
    [sqrt (PI / 2)]. *)
Lemma gauss_int_lub : is_lub gauss_int_image (sqrt (PI / 2)).
Proof.
  pose proof PI_RGT_0 as Hpi.
  split.
  - intros y [x ->].
    destruct (Rle_dec 0 x) as [Hx | Hx].
    + rewrite <- (sqrt_square (gauss_int x)) by now apply gauss_int_nonneg.
      apply sqrt_le_1_alt. rewrite gauss_int_sqr.
      pose proof (sliced_area_bounds x). lra.
    + assert (Hx' : x <= 0) by lra.
      apply gauss_int_mono in Hx'. rewrite gauss_int_0 in Hx'.
      pose proof (sqrt_pos (PI / 2)). lra.
  - intros b Hb.
    destruct (Rle_dec (sqrt (PI / 2)) b) as [H | H]; [exact H|].
    exfalso.
    assert (Hb0 : 0 <= b).
    { rewrite <- gauss_int_0. apply Hb. now exists 0. }
    assert (Hbb : b * b < PI / 2).
    { rewrite <- (sqrt_sqrt (PI / 2)) by lra.
      pose proof (sqrt_pos (PI / 2)). nra. }
    set (e := PI / 2 - b * b) in *.
    assert (He : 0 < e) by (unfold e; lra).
    set (x := 1 + 2 / e).
    assert (Hx : 0 < x).
    { unfold x. assert (0 < 2 / e) by (apply Rdiv_lt_0_compat; lra). lra. }
    assert (Hg : 2 * gauss x < e).
    { pose proof (gauss_le_inv x Hx) as Hg.
      assert (/ x < e / 2).
      { apply Rmult_lt_reg_r with x; [exact Hx|].
        rewrite Rinv_l by lra. unfold x.
        replace (e / 2 * (1 + 2 / e)) with (e / 2 + 1) by (field; lra). lra. }
      lra. }
    assert (Hxb : gauss_int x <= b) by (apply Hb; now exists x).
    pose proof (gauss_int_sqr x) as Hsq.
    pose proof (sliced_area_bounds x) as [_ Hs].
    pose proof (gauss_int_nonneg x (Rlt_le _ _ Hx)).
    assert (gauss_int x * gauss_int x <= b * b) by nra.
    unfold e in Hg. lra.
Qed.

(** ** Half of the total mass *)

Lemma gauss_half_mass_lub : is_lub gauss_int_image gauss_half_mass.
Proof. exact gauss_int_lub. Qed.

Lemma gauss_int_le_mass x : gauss_int x <= gauss_half_mass.
Proof. apply gauss_half_mass_lub. now exists x. Qed.

Lemma gauss_int_lt_mass x : gauss_int x < gauss_half_mass.
Proof.
  apply Rlt_le_trans with (gauss_int (x + 1)).
  - apply gauss_int_incr. lra.
  - apply gauss_int_le_mass.
Qed.

Lemma gauss_half_mass_le b : (forall x, gauss_int x <= b) -> gauss_half_mass <= b.
Proof.
  intros H. apply gauss_half_mass_lub. intros y [x ->]. apply H.
Qed.

Lemma gauss_half_mass_bounds : 122 / 100 < gauss_half_mass < 142 / 100.
Proof.
  unfold gauss_half_mass.
  pose proof PI2_3_2. pose proof PI_4.
  split.
  - rewrite <- (sqrt_square (122 / 100)) by lra.
    apply sqrt_lt_1_alt. lra.
  - rewrite <- (sqrt_square (142 / 100)) by lra.
    apply sqrt_lt_1_alt. lra.
Qed.

Lemma gauss_half_mass_pos : 0 < gauss_half_mass.
Proof. pose proof gauss_half_mass_bounds. lra. Qed.

Lemma gauss_tail_le x : 0 < x -> gauss_half_mass - gauss_int x <= gauss x / x.
Proof.
  intros Hx.
  enough (gauss_half_mass <= gauss_int x + gauss x / x) by lra.
  apply gauss_half_mass_le. intros y.
  assert (0 < gauss x / x).
  { apply Rdiv_lt_0_compat; [apply gauss_pos | exact Hx]. }
  destruct (Rle_dec x y) as [Hxy | Hxy].
  - pose proof (gauss_int_tail_le x y Hx Hxy). lra.
  - assert (Hyx : y <= x) by lra.
    pose proof (gauss_int_mono y x Hyx). lra.
Qed.

(** The mass above [x] is at least [mills x]. *)
Lemma derivable_pt_lim_mills t :
  derivable_pt_lim mills t
    (- (gauss t * ((t * t * t * t + 2 * (t * t) - 1)
                   / ((1 + t * t) * (1 + t * t))))).
Proof.
  pose proof (one_plus_sqr_pos t) as Hp.
  unfold mills.
  apply derivable_pt_lim_eq with
    (- t * gauss t * (t / (1 + t * t))
     + gauss t * ((1 * (1 + t * t) - (0 + (1 * t + t * 1)) * t)
                  / Rsqr (1 + t * t))).
  { unfold Rsqr. field. lra. }
  apply (derivable_pt_lim_mult gauss (fun u => u / (1 + u * u))).
  - apply derivable_pt_lim_gauss.
  - apply (derivable_pt_lim_div id (fun u => 1 + u * u)).
    + apply derivable_pt_lim_id.
    + apply (derivable_pt_lim_plus (fct_cte 1) (id * id)%F).
      * apply derivable_pt_lim_const.
      * apply derivable_pt_lim_mult; apply derivable_pt_lim_id.
    + lra.
Qed.

Lemma mills_le_gauss t : 0 <= t -> mills t <= gauss t.
Proof.
  intros Ht. unfold mills.
  pose proof (gauss_pos t). pose proof (one_plus_sqr_pos t).
  assert (t / (1 + t * t) <= 1).
  { apply Rmult_le_reg_r with (1 + t * t); [assumption|].
    unfold Rdiv. rewrite Rmult_assoc, Rinv_l by lra. nra. }
  nra.
Qed.

Lemma gauss_int_mills x y : x <= y ->
  mills x - mills y <= gauss_int y - gauss_int x.
Proof.
  intros Hxy.
  enough ((fun t => - mills t) y - (fun t => - mills t) x
          <= gauss_int y - gauss_int x) by (cbv beta in *; lra).
  apply (gauss_int_ge_prim (fun t => - mills t)
           (fun t => - - (gauss t * ((t * t * t * t + 2 * (t * t) - 1)
                                     / ((1 + t * t) * (1 + t * t)))))).
  - exact Hxy.
  - intros c _. apply (derivable_pt_lim_opp mills), derivable_pt_lim_mills.
  - intros c _. rewrite Ropp_involutive.
    pose proof (gauss_pos c). pose proof (one_plus_sqr_pos c).
    assert ((c * c * c * c + 2 * (c * c) - 1) / ((1 + c * c) * (1 + c * c)) <= 1).
    { apply Rmult_le_reg_r with ((1 + c * c) * (1 + c * c)); [nra|].
      unfold Rdiv. rewrite Rmult_assoc, Rinv_l by nra. nra. }
    nra.
Qed.

Lemma gauss_tail_ge_mills x : 0 <= x -> mills x <= gauss_half_mass - gauss_int x.
Proof.
  intros Hx.
  destruct (Rle_dec (mills x) (gauss_half_mass - gauss_int x)) as [H | H];
    [exact H|].
  exfalso.
  set (e := mills x - (gauss_half_mass - gauss_int x)) in *.
  assert (He : 0 < e) by (unfold e; lra).
  set (y := x + 1 + / e).
  assert (Hie : 0 < / e) by now apply Rinv_0_lt_compat.
  assert (Hy : 0 < y) by (unfold y; lra).
  assert (Hxy : x <= y) by (unfold y; lra).
  pose proof (gauss_int_mills x y Hxy) as Hm.
  pose proof (gauss_int_le_mass y) as Hc.
  pose proof (mills_le_gauss y (Rlt_le _ _ Hy)) as Hmy.
  pose proof (gauss_le_inv y Hy) as Hg.
  assert (/ y < e).
  { rewrite <- (Rinv_inv e). apply Rinv_lt_contravar.
    - apply Rmult_lt_0_compat; assumption.
    - unfold y. lra. }
  unfold e in *. lra.
Qed.

Lemma gauss_int_approaches_mass eps :
  0 < eps -> exists x, gauss_half_mass - eps < gauss_int x.
Proof.
  intros Heps.
  destruct (classic (exists x, gauss_half_mass - eps < gauss_int x)) as [H | H]; [exact H|].
  exfalso.
  assert (gauss_half_mass <= gauss_half_mass - eps); [|lra].
  apply gauss_half_mass_le. intros x.
  destruct (Rle_dec (gauss_int x) (gauss_half_mass - eps)) as [Hle | Hnle]; [exact Hle|].
  exfalso. apply H. exists x. lra.
Qed.

(** ** Distribution function, survival function and quantile *)

Lemma sqrt_2PI : sqrt (2 * PI) = 2 * gauss_half_mass.
Proof.
  unfold gauss_half_mass. pose proof PI_RGT_0.
  replace (2 * PI) with (2 * 2 * (PI / 2)) by field.
  rewrite sqrt_mult, sqrt_square; lra.
Qed.

Lemma two_mass_pos : 0 < 2 * gauss_half_mass.
Proof. pose proof gauss_half_mass_pos. lra. Qed.

Lemma two_mass_neq : 2 * gauss_half_mass <> 0.
Proof. apply Rgt_not_eq, two_mass_pos. Qed.

Lemma std_normal_cdf_mass x :
  std_normal_cdf x = (gauss_half_mass + gauss_int x) / (2 * gauss_half_mass).
Proof.
  unfold std_normal_cdf. rewrite sqrt_2PI. pose proof two_mass_neq. field. lra.
Qed.

Lemma std_normal_sf_mass x :
  std_normal_sf x = (gauss_half_mass - gauss_int x) / (2 * gauss_half_mass).
Proof.
  unfold std_normal_sf. rewrite sqrt_2PI. pose proof two_mass_neq. field. lra.
Qed.

Lemma std_normal_pdf_pos x : 0 < std_normal_pdf x.
Proof.
  unfold std_normal_pdf. rewrite sqrt_2PI.
  apply Rdiv_lt_0_compat; [apply gauss_pos | apply two_mass_pos].
Qed.

Lemma std_normal_sf_cdf x : std_normal_sf x = 1 - std_normal_cdf x.
Proof. unfold std_normal_sf, std_normal_cdf. lra. Qed.

Lemma std_normal_cdf_opp x : std_normal_cdf (- x) = std_normal_sf x.
Proof.
  unfold std_normal_sf, std_normal_cdf. rewrite gauss_int_odd.
  unfold Rdiv. ring.
Qed.

Lemma std_normal_sf_opp x : std_normal_sf (- x) = std_normal_cdf x.
Proof. rewrite <- std_normal_cdf_opp. f_equal. ring. Qed.

Lemma std_normal_cdf_0 : std_normal_cdf 0 = 1 / 2.
Proof. unfold std_normal_cdf. rewrite gauss_int_0. unfold Rdiv. ring. Qed.

Lemma std_normal_sf_0 : std_normal_sf 0 = 1 / 2.
Proof. rewrite std_normal_sf_cdf, std_normal_cdf_0. lra. Qed.

Lemma derivable_pt_lim_cdf x :
  derivable_pt_lim std_normal_cdf x (std_normal_pdf x).
Proof.
  unfold std_normal_cdf, std_normal_pdf.
  apply derivable_pt_lim_eq with (0 + gauss x / sqrt (2 * PI)); [ring|].
  apply (derivable_pt_lim_plus (fct_cte (1 / 2))
           (fun t => gauss_int t / sqrt (2 * PI))).
  - apply derivable_pt_lim_const.
  - apply (derivable_pt_lim_div_scal gauss_int), derivable_pt_lim_gauss_int.
Qed.

Lemma std_normal_cdf_incr x y : x < y -> std_normal_cdf x < std_normal_cdf y.
Proof.
  intros H.
  apply (mvt_lt std_normal_cdf std_normal_pdf x y); [|exact H|].
  - intros; apply derivable_pt_lim_cdf.
  - intros; apply std_normal_pdf_pos.
Qed.

Lemma std_normal_cdf_mono x y : x <= y -> std_normal_cdf x <= std_normal_cdf y.
Proof. intros [H | ->]; [left; now apply std_normal_cdf_incr | lra]. Qed.

Lemma std_normal_sf_decr x y : x < y -> std_normal_sf y < std_normal_sf x.
Proof.
  intros H. rewrite !std_normal_sf_cdf. apply std_normal_cdf_incr in H. lra.
Qed.

Lemma std_normal_sf_anti x y : x <= y -> std_normal_sf y <= std_normal_sf x.
Proof. intros [H | ->]; [left; now apply std_normal_sf_decr | lra]. Qed.

Lemma std_normal_sf_pos x : 0 < std_normal_sf x.
Proof.
  rewrite std_normal_sf_mass. apply Rdiv_lt_0_compat; [|apply two_mass_pos].
  pose proof (gauss_int_lt_mass x). lra.
Qed.

Lemma std_normal_cdf_pos x : 0 < std_normal_cdf x.
Proof. rewrite <- std_normal_sf_opp. apply std_normal_sf_pos. Qed.

Lemma std_normal_cdf_lt_1 x : std_normal_cdf x < 1.
Proof. pose proof (std_normal_sf_pos x). rewrite std_normal_sf_cdf in H. lra. Qed.

Lemma std_normal_sf_lt_1 x : std_normal_sf x < 1.
Proof. pose proof (std_normal_cdf_pos x). rewrite std_normal_sf_cdf. lra. Qed.

Lemma derivable_pt_lim_sf x :
  derivable_pt_lim std_normal_sf x (- std_normal_pdf x).
Proof.
  apply (derivable_pt_lim_ext (fun t => 1 - std_normal_cdf t)).
  { intros. now rewrite std_normal_sf_cdf. }
  apply derivable_pt_lim_eq with (0 - std_normal_pdf x); [ring|].
  apply (derivable_pt_lim_minus (fct_cte 1) std_normal_cdf).
  - apply derivable_pt_lim_const.
  - apply derivable_pt_lim_cdf.
Qed.

Lemma std_normal_sf_continuity : continuity std_normal_sf.
Proof.
  intros x. apply derivable_continuous_pt.
  exists (- std_normal_pdf x). apply derivable_pt_lim_sf.
Qed.

Lemma std_normal_sf_small q : 0 < q -> exists b, std_normal_sf b < q.
Proof.
  intros Hq.
  pose proof two_mass_pos as Hm.
  destruct (gauss_int_approaches_mass (q * (2 * gauss_half_mass))) as [b Hb].
  { now apply Rmult_lt_0_compat. }
  exists b. rewrite std_normal_sf_mass.
  apply Rmult_lt_reg_r with (2 * gauss_half_mass); [exact Hm|].
  unfold Rdiv. rewrite Rmult_assoc, Rinv_l; lra.
Qed.

Lemma std_normal_sf_large q : q < 1 -> exists a, q < std_normal_sf a.
Proof.
  intros Hq.
  destruct (std_normal_sf_small (1 - q)) as [b Hb]; [lra|].
  exists (- b). rewrite std_normal_sf_opp.
  rewrite std_normal_sf_cdf in Hb. lra.
Qed.

Lemma std_normal_sf_surj q : 0 < q < 1 -> exists z, std_normal_sf z = q.
Proof.
  intros [Hq0 Hq1].
  destruct (std_normal_sf_small q Hq0) as [b Hb].
  destruct (std_normal_sf_large q Hq1) as [a Ha].
  assert (Hab : a < b).
  { destruct (Rlt_dec a b) as [H | H]; [exact H|].
    assert (Hba : b <= a) by lra.
    apply std_normal_sf_anti in Hba. lra. }
  destruct (IVT (fun t => q - std_normal_sf t) a b) as [z [_ Hz]].
  - intros x.
    apply (continuity_pt_minus (fct_cte q) std_normal_sf).
    + apply continuity_pt_const. intros u v. reflexivity.
    + apply std_normal_sf_continuity.
  - exact Hab.
  - lra.
  - lra.
  - exists z. lra.
Qed.

Lemma std_normal_sf_isf q : 0 < q < 1 -> std_normal_sf (std_normal_isf q) = q.
Proof.
  intros Hq. unfold std_normal_isf.
  apply (epsilon_spec (inhabits 0) (fun z => std_normal_sf z = q)).
  now apply std_normal_sf_surj.
Qed.

Lemma std_normal_sf_inj x y : std_normal_sf x = std_normal_sf y -> x = y.
Proof.
  intros H.
  destruct (Rtotal_order x y) as [Hlt | [Heq | Hgt]]; [|exact Heq|].
  - apply std_normal_sf_decr in Hlt. lra.
  - apply std_normal_sf_decr in Hgt. lra.
Qed.

Lemma std_normal_isf_sf x : std_normal_isf (std_normal_sf x) = x.
Proof.
  apply std_normal_sf_inj, std_normal_sf_isf.
  split; [apply std_normal_sf_pos | apply std_normal_sf_lt_1].
Qed.

Lemma std_normal_isf_lt_iff q z :
  0 < q < 1 -> (std_normal_isf q < z <-> std_normal_sf z < q).
Proof.
  intros Hq. split; intros H.
  - apply std_normal_sf_decr in H. now rewrite std_normal_sf_isf in H.
  - destruct (Rlt_dec (std_normal_isf q) z) as [Hlt | Hn]; [exact Hlt|].
    assert (Hle : z <= std_normal_isf q) by lra.
    apply std_normal_sf_anti in Hle. rewrite std_normal_sf_isf in Hle; lra.
Qed.

Lemma std_normal_isf_gt_iff q z :
  0 < q < 1 -> (z < std_normal_isf q <-> q < std_normal_sf z).
Proof.
  intros Hq. split; intros H.
  - apply std_normal_sf_decr in H. now rewrite std_normal_sf_isf in H.
  - destruct (Rlt_dec z (std_normal_isf q)) as [Hlt | Hn]; [exact Hlt|].
    assert (Hle : std_normal_isf q <= z) by lra.
    apply std_normal_sf_anti in Hle. rewrite std_normal_sf_isf in Hle; lra.
Qed.

Lemma std_normal_isf_anti q1 q2 :
  0 < q1 -> q1 <= q2 -> q2 < 1 -> std_normal_isf q2 <= std_normal_isf q1.
Proof.
  intros H0 H12 H1.
  destruct (Rle_dec (std_normal_isf q2) (std_normal_isf q1)) as [H | H]; [exact H|].
  exfalso.
  assert (Hlt : std_normal_isf q1 < std_normal_isf q2) by lra.
  apply std_normal_sf_decr in Hlt.
  rewrite !std_normal_sf_isf in Hlt; lra.
Qed.

Lemma std_normal_isf_half : std_normal_isf (1 / 2) = 0.
Proof. rewrite <- std_normal_sf_0. apply std_normal_isf_sf. Qed.

Lemma std_normal_isf_nonneg q : 0 < q <= 1 / 2 -> 0 <= std_normal_isf q.
Proof.
  intros [H0 H1]. rewrite <- std_normal_isf_half.
  apply std_normal_isf_anti; lra.
Qed.



(** ** The power as a function of the critical value and of [ncp] *)

Lemma two_sided_power_opp z ncp :
  two_sided_power z (- ncp) = two_sided_power z ncp.
Proof.
  unfold two_sided_power.
  rewrite <- (std_normal_cdf_opp (z - - ncp)), <- (std_normal_sf_opp (- z - - ncp)).
  rewrite Rplus_comm. f_equal; f_equal; ring.
Qed.

Lemma two_sided_power_abs z ncp :
  two_sided_power z (Rabs ncp) = two_sided_power z ncp.
Proof.
  unfold Rabs. destruct (Rcase_abs ncp); [apply two_sided_power_opp | reflexivity].
Qed.

Lemma two_sided_power_null z : two_sided_power z 0 = 2 * std_normal_sf z.
Proof.
  unfold two_sided_power. rewrite !Rminus_0_r, std_normal_cdf_opp. ring.
Qed.

Lemma two_sided_power_pos z ncp : 0 < two_sided_power z ncp.
Proof.
  unfold two_sided_power.
  pose proof (std_normal_sf_pos (z - ncp)).
  pose proof (std_normal_cdf_pos (- z - ncp)). lra.
Qed.

Lemma two_sided_power_le_1 z ncp : 0 <= z -> two_sided_power z ncp <= 1.
Proof.
  intros Hz. unfold two_sided_power. rewrite std_normal_sf_cdf.
  assert (H : - z - ncp <= z - ncp) by lra.
  apply std_normal_cdf_mono in H. lra.
Qed.



Lemma two_sided_power_anti_z z1 z2 ncp :
  z1 <= z2 -> two_sided_power z2 ncp <= two_sided_power z1 ncp.
Proof.
  intros Hz. unfold two_sided_power.
  assert (H1 : z1 - ncp <= z2 - ncp) by lra.
  assert (H2 : - z2 - ncp <= - z1 - ncp) by lra.
  apply std_normal_sf_anti in H1. apply std_normal_cdf_mono in H2. lra.
Qed.

Lemma gauss_sqr_le x y : x * x <= y * y -> gauss y <= gauss x.
Proof.
  intros H. unfold gauss.
  destruct (Req_dec (x * x) (y * y)) as [-> | Hn]; [lra|].
  left. apply exp_increasing. lra.
Qed.

Lemma derivable_pt_lim_power z ncp :
  derivable_pt_lim (two_sided_power z) ncp
    (std_normal_pdf (z - ncp) - std_normal_pdf (- z - ncp)).
Proof.
  unfold two_sided_power.
  apply derivable_pt_lim_eq with
    (- std_normal_pdf (z - ncp) * (0 - 1) + std_normal_pdf (- z - ncp) * (0 - 1));
    [ring|].
  apply (derivable_pt_lim_plus (fun t => std_normal_sf (z - t))
           (fun t => std_normal_cdf (- z - t))).
  - apply (derivable_pt_lim_comp (fun t => z - t) std_normal_sf).
    + apply (derivable_pt_lim_minus (fct_cte z) id);
        [apply derivable_pt_lim_const | apply derivable_pt_lim_id].
    + apply derivable_pt_lim_sf.
  - apply (derivable_pt_lim_comp (fun t => - z - t) std_normal_cdf).
    + apply (derivable_pt_lim_minus (fct_cte (- z)) id);
        [apply derivable_pt_lim_const | apply derivable_pt_lim_id].
    + apply derivable_pt_lim_cdf.
Qed.

Lemma two_sided_power_mono_ncp z l1 l2 :
  0 <= z -> 0 <= l1 -> l1 <= l2 -> two_sided_power z l1 <= two_sided_power z l2.
Proof.
  intros Hz Hl1 Hl12.
  apply (mvt_le (two_sided_power z)
           (fun t => std_normal_pdf (z - t) - std_normal_pdf (- z - t)) l1 l2);
    [|exact Hl12|].
  - intros c _. apply derivable_pt_lim_power.
  - intros c Hc. unfold std_normal_pdf, Rdiv. rewrite sqrt_2PI.
    assert (Hg : gauss (- z - c) <= gauss (z - c)) by (apply gauss_sqr_le; nra).
    pose proof (Rinv_0_lt_compat _ two_mass_pos). nra.
Qed.

Lemma two_sided_power_mono_abs z l1 l2 :
  0 <= z -> Rabs l1 <= Rabs l2 -> two_sided_power z l1 <= two_sided_power z l2.
Proof.
  intros Hz H.
  rewrite <- (two_sided_power_abs z l1), <- (two_sided_power_abs z l2).
  apply two_sided_power_mono_ncp; [exact Hz | apply Rabs_pos | exact H].
Qed.

(** ** Numerical bounds *)

Lemma exp_ge_pow (y : R) (n : nat) : 0 <= 1 + y -> (1 + y) ^ n <= exp (INR n * y).
Proof.
  intros Hy. induction n as [|n IH].
  - simpl. rewrite Rmult_0_l, exp_0. lra.
  - rewrite S_INR, Rmult_plus_distr_r, Rmult_1_l, exp_plus.
    rewrite <- tech_pow_Rmult, Rmult_comm.
    apply Rmult_le_compat.
    + now apply pow_le.
    + exact Hy.
    + exact IH.
    + apply exp_ineq1_le.
Qed.

(** [k <= (a / b) ^ n] for integers, decided by integer arithmetic. *)
Lemma ratio_pow_ge (k a b : Z) (n : nat) :
  (0 < b)%Z -> (k * b ^ Z.of_nat n <= a ^ Z.of_nat n)%Z ->
  IZR k <= (IZR a / IZR b) ^ n.
Proof.
  intros Hb H.
  assert (HB : 0 < IZR b) by now apply IZR_lt.
  assert (HBn : 0 < IZR b ^ n) by now apply pow_lt.
  apply Rmult_le_reg_r with (IZR b ^ n); [exact HBn|].
  rewrite <- Rpow_mult_distr.
  replace (IZR a / IZR b * IZR b) with (IZR a) by (field; lra).
  rewrite !pow_IZR, <- mult_IZR. now apply IZR_le.
Qed.

Lemma ratio_pow_ge_inv (k a b : Z) (n : nat) :
  (0 < b)%Z -> (0 < k)%Z -> (b ^ Z.of_nat n <= k * a ^ Z.of_nat n)%Z ->
  / IZR k <= (IZR a / IZR b) ^ n.
Proof.
  intros Hb Hk H.
  assert (HB : 0 < IZR b) by now apply IZR_lt.
  assert (HK : 0 < IZR k) by now apply IZR_lt.
  assert (HBn : 0 < IZR b ^ n) by now apply pow_lt.
  apply Rmult_le_reg_r with (IZR b ^ n); [exact HBn|].
  rewrite <- Rpow_mult_distr.
  replace (IZR a / IZR b * IZR b) with (IZR a) by (field; lra).
  apply Rmult_le_reg_l with (IZR k); [exact HK|].
  rewrite <- Rmult_assoc, Rinv_r, Rmult_1_l by lra.
  rewrite !pow_IZR, <- mult_IZR. now apply IZR_le.
Qed.

Lemma exp_15125_ge : 3300000 <= exp (15125 / 1000).
Proof.
  replace (15125 / 1000) with (INR 1024 * (121 / 8192)).
  2:{ rewrite (INR_IZR_INZ 1024). simpl. field. }
  eapply Rle_trans; [|apply exp_ge_pow; lra].
  replace (1 + 121 / 8192) with (8313 / 8192) by field.
  apply (ratio_pow_ge 3300000 8313 8192 1024); [lia|].
  apply Z.leb_le. vm_compute. reflexivity.
Qed.

Lemma gauss_55_le : gauss (55 / 10) <= / 3300000.
Proof.
  unfold gauss.
  replace (- (55 / 10 * (55 / 10)) / 2) with (- (15125 / 1000)) by field.
  rewrite exp_Ropp.
  apply Rinv_le_contravar; [lra | apply exp_15125_ge].
Qed.

Lemma gauss_533_ge : / 1650000 <= gauss (533 / 100).
Proof.
  unfold gauss.
  apply Rle_trans with (exp (- (14205 / 1000))).
  2:{ left. apply exp_increasing. lra. }
  replace (- (14205 / 1000)) with (INR 1024 * (- (2841 / 204800))).
  2:{ rewrite (INR_IZR_INZ 1024). simpl. field. }
  eapply Rle_trans; [|apply exp_ge_pow; lra].
  replace (1 + - (2841 / 204800)) with (201959 / 204800) by field.
  apply (ratio_pow_ge_inv 1650000 201959 204800 1024); [lia | lia |].
  apply Z.leb_le. vm_compute. reflexivity.
Qed.

Lemma std_normal_sf_lt x q :
  gauss_half_mass - gauss_int x < q * (2 * gauss_half_mass) -> std_normal_sf x < q.
Proof.
  intros H. rewrite std_normal_sf_mass.
  apply Rmult_lt_reg_r with (2 * gauss_half_mass); [apply two_mass_pos|].
  unfold Rdiv. rewrite Rmult_assoc, Rinv_l by apply two_mass_neq. lra.
Qed.

Lemma std_normal_sf_gt x q :
  q * (2 * gauss_half_mass) < gauss_half_mass - gauss_int x -> q < std_normal_sf x.
Proof.
  intros H. rewrite std_normal_sf_mass.
  apply Rmult_lt_reg_r with (2 * gauss_half_mass); [apply two_mass_pos|].
  unfold Rdiv. rewrite Rmult_assoc, Rinv_l by apply two_mass_neq. lra.
Qed.

Lemma std_normal_sf_55 : std_normal_sf (55 / 10) < 3 / 100000000.
Proof.
  apply std_normal_sf_lt.
  pose proof (gauss_tail_le (55 / 10)) as H.
  pose proof gauss_55_le as Hg.
  pose proof gauss_half_mass_bounds.
  assert (gauss (55 / 10) / (55 / 10) <= / 3300000 / (55 / 10)).
  { unfold Rdiv. apply Rmult_le_compat_r; [lra | exact Hg]. }
  lra.
Qed.

Lemma std_normal_sf_533 : 3 / 100000000 < std_normal_sf (533 / 100).
Proof.
  apply std_normal_sf_gt.
  pose proof (gauss_tail_ge_mills (533 / 100)) as H.
  pose proof gauss_533_ge as Hg.
  pose proof gauss_half_mass_bounds.
  assert (/ 1650000 * (18 / 100) <= mills (533 / 100)).
  { unfold mills. apply Rmult_le_compat; lra. }
  lra.
Qed.

Lemma std_normal_cdf_026 : 58 / 100 < std_normal_cdf (26 / 100).
Proof.
  pose proof (std_normal_sf_cdf (26 / 100)) as E.
  enough (std_normal_sf (26 / 100) < 42 / 100) by lra.
  apply std_normal_sf_lt.
  pose proof (gauss_int_ge_cubic (26 / 100)).
  pose proof gauss_half_mass_bounds.
  lra.
Qed.

Lemma std_normal_cdf_043 : std_normal_cdf (43 / 100) < 679 / 1000.
Proof.
  pose proof (std_normal_sf_cdf (43 / 100)) as E.
  enough (321 / 1000 < std_normal_sf (43 / 100)) by lra.
  apply std_normal_sf_gt.
  pose proof (gauss_int_le_id (43 / 100)).
  pose proof gauss_half_mass_bounds.
  lra.
Qed.

Lemma std_normal_sf_12 : std_normal_sf (12 / 10) < 1 / 4.
Proof.
  apply std_normal_sf_lt.
  pose proof (gauss_int_ge_cubic (12 / 10)).
  pose proof gauss_half_mass_bounds.
  lra.
Qed.

(** Bounds on the critical value at the genome-wide threshold 6e-8. *)
Lemma z_cut_genome_wide :
  533 / 100 < std_normal_isf (3 / 100000000) < 55 / 10.
Proof.
  split.
  - apply std_normal_isf_gt_iff; [lra | apply std_normal_sf_533].
  - apply std_normal_isf_lt_iff; [lra | apply std_normal_sf_55].
Qed.

(** ** From floats to real numbers *)

Ltac float_step :=
  match goal with
  | |- context [Rlt_dec ?a ?b] => destruct (Rlt_dec a b); try lra
  | |- context [Req_dec_T ?a ?b] => destruct (Req_dec_T a b); try lra
  end.

Ltac float_dec := repeat (cbn; float_step); cbn.

Lemma valid_input_real_domain n maf beta p_thr sigma :
  valid_input n maf beta p_thr sigma -> real_domain n maf beta p_thr sigma.
Proof.
  intros (Hn & Hmaf & Hp & Hs). unfold real_domain.
  repeat split; try lra.
  apply Rmult_le_pos; [apply Rmult_le_pos|]; lra.
Qed.

(** On [real_domain] no special value arises and the float operations are
    the real ones. *)
Lemma analytic_power_real n maf beta p_thr sigma :
  real_domain n maf beta p_thr sigma ->
  analytic_power (Num n) (Num maf) (Num beta) (Num p_thr) (Num sigma) =
  Num (two_sided_power (std_normal_isf (p_thr / 2))
         (beta * sqrt (n * (2 * maf * (1 - maf))) / sigma)).
Proof.
  intros (Hp & Hn & Hs).
  assert (Hv : 0 <= n * (2 * maf * (1 - maf))) by lra.
  unfold analytic_power, two_sided_power.
  float_dec. reflexivity.
Qed.

Lemma ncp_null n maf beta sigma :
  (beta = 0 /\ 0 <= n /\ 0 < maf <= 1 / 2) \/ maf = 0 \/ maf = 1 \/ n = 0 ->
  0 <= n * maf * (1 - maf) /\
  beta * sqrt (n * (2 * maf * (1 - maf))) / sigma = 0.
Proof.
  assert (Hz : forall v, v = 0 -> beta * sqrt v / sigma = 0).
  { intros v ->. rewrite sqrt_0. unfold Rdiv. now rewrite Rmult_0_r, Rmult_0_l. }
  intros [(-> & Hn & Hmaf) | [-> | [-> | ->]]].
  - split.
    + apply Rmult_le_pos; [apply Rmult_le_pos|]; lra.
    + unfold Rdiv. now rewrite !Rmult_0_l.
  - split; [right; ring | apply Hz; ring].
  - split; [right; ring | apply Hz; ring].
  - split; [right; ring | apply Hz; ring].
Qed.

Lemma ncp_abs_mono n1 n2 maf b1 b2 sigma :
  0 <= n1 <= n2 -> 0 <= maf <= 1 -> 0 < sigma -> Rabs b1 <= Rabs b2 ->
  Rabs (b1 * sqrt (n1 * (2 * maf * (1 - maf))) / sigma) <=
  Rabs (b2 * sqrt (n2 * (2 * maf * (1 - maf))) / sigma).
Proof.
  intros Hn Hmaf Hs Hb.
  assert (Hv : 0 <= 2 * maf * (1 - maf)) by nra.
  assert (Hsq : sqrt (n1 * (2 * maf * (1 - maf))) <=
                sqrt (n2 * (2 * maf * (1 - maf)))).
  { apply sqrt_le_1_alt. apply Rmult_le_compat_r; lra. }
  pose proof (sqrt_pos (n1 * (2 * maf * (1 - maf)))) as H1.
  unfold Rdiv. rewrite !Rabs_mult.
  rewrite (Rabs_pos_eq (/ sigma)) by (left; now apply Rinv_0_lt_compat).
  rewrite !(Rabs_pos_eq (sqrt _)) by apply sqrt_pos.
  apply Rmult_le_compat_r; [left; now apply Rinv_0_lt_compat|].
  apply Rmult_le_compat; [apply Rabs_pos | exact H1 | exact Hb | exact Hsq].
Qed.

(** ** Float arithmetic under a change of sign *)

Lemma float_mul_opp_l (a b : npfloat) : (- a * b = - (a * b))%fl.
Proof.
  destruct a, b; cbn; unfold Float.signed_inf; float_dec;
    try reflexivity; try lra; f_equal; ring.
Qed.

Lemma float_div_opp_l (a b : npfloat) : (- a / b = - (a / b))%fl.
Proof.
  destruct a, b; cbn; unfold Float.signed_inf; float_dec;
    try reflexivity; try lra; f_equal; field; assumption.
Qed.

Lemma float_tails_opp (z l : npfloat) :
  (norm_sf (z - - l) + norm_cdf (- z - - l) =
   norm_sf (z - l) + norm_cdf (- z - l))%fl.
Proof.
  destruct z as [z| | |], l as [l| | |]; cbn; try reflexivity;
    try (f_equal; ring).
  f_equal. apply (two_sided_power_opp z l).
Qed.

(** ** The properties *)

(** C1. On every valid input the value returned by [analytic_power] is the
    specification's reference formula [SF (z_cut - ncp) + CDF (- z_cut - ncp)]
    with [SF x = 1 - CDF x], [z_cut] the inverse survival function at
    [p_thr / 2], [var_g = 2 * maf * (1 - maf)] and
    [ncp = beta * sqrt (n * var_g) / sigma]. *)
Theorem analytic_power_matches_reference (n maf beta p_thr sigma : R) :
  valid_input n maf beta p_thr sigma ->
  analytic_power (Num n) (Num maf) (Num beta) (Num p_thr) (Num sigma) =
  Num (power_reference n maf beta p_thr sigma).
Proof.
  intros Hv. rewrite analytic_power_real by now apply valid_input_real_domain.
  unfold power_reference, SF, two_sided_power.
  now rewrite std_normal_sf_cdf.
Qed.

Lemma analytic_power_matches_reference_witness :
  valid_input 1800 (2 / 10) (24 / 100) (6 / 100000000) 1 /\
  analytic_power (Num 1800) (Num (2 / 10)) (Num (24 / 100))
    (Num (6 / 100000000)) (Num 1) =
  Num (power_reference 1800 (2 / 10) (24 / 100) (6 / 100000000) 1).
Proof.
  assert (H : valid_input 1800 (2 / 10) (24 / 100) (6 / 100000000) 1)
    by (unfold valid_input; lra).
  split; [exact H | exact (analytic_power_matches_reference _ _ _ _ _ H)].
Defined.

(** C2. From a valid input, the power does not decrease when [|beta|]
    grows, when [n] grows, or when [p_thr] grows inside [(0, 1)], the other
    inputs being held fixed. *)
Theorem analytic_power_monotone (n maf beta p_thr sigma : R) :
  valid_input n maf beta p_thr sigma ->
  (forall beta' : R, Rabs beta <= Rabs beta' ->
     (analytic_power (Num n) (Num maf) (Num beta) (Num p_thr) (Num sigma) <=
      analytic_power (Num n) (Num maf) (Num beta') (Num p_thr) (Num sigma))%fl)
  /\
  (forall n' : R, n <= n' ->
     (analytic_power (Num n) (Num maf) (Num beta) (Num p_thr) (Num sigma) <=
      analytic_power (Num n') (Num maf) (Num beta) (Num p_thr) (Num sigma))%fl)
  /\
  (forall p_thr' : R, p_thr <= p_thr' -> p_thr' < 1 ->
     (analytic_power (Num n) (Num maf) (Num beta) (Num p_thr) (Num sigma) <=
      analytic_power (Num n) (Num maf) (Num beta) (Num p_thr') (Num sigma))%fl).
Proof.
  intros Hv.
  pose proof Hv as (Hn & Hmaf & Hp & Hs).
  assert (Hz : 0 <= std_normal_isf (p_thr / 2))
    by (apply std_normal_isf_nonneg; lra).
  rewrite (analytic_power_real n maf beta p_thr sigma)
    by now apply valid_input_real_domain.
  repeat split.
  - intros beta' Hb.
    rewrite (analytic_power_real n maf beta' p_thr sigma)
      by (apply valid_input_real_domain; unfold valid_input; lra).
    cbn. apply two_sided_power_mono_abs; [exact Hz|].
    apply ncp_abs_mono; lra.
  - intros n' Hn'.
    rewrite (analytic_power_real n' maf beta p_thr sigma)
      by (apply valid_input_real_domain; unfold valid_input; lra).
    cbn. apply two_sided_power_mono_abs; [exact Hz|].
    apply ncp_abs_mono; lra.
  - intros p' Hp' Hp1.
    rewrite (analytic_power_real n maf beta p' sigma)
      by (apply valid_input_real_domain; unfold valid_input; lra).
    cbn. apply two_sided_power_anti_z.
    apply std_normal_isf_anti; lra.
Qed.

Lemma analytic_power_monotone_witness :
  valid_input 1800 (2 / 10) (15 / 100) (6 / 100000000) 1 /\
  (analytic_power (Num 1800) (Num (2 / 10)) (Num (15 / 100))
     (Num (6 / 100000000)) (Num 1) <=
   analytic_power (Num 1800) (Num (2 / 10)) (Num (- (24 / 100)))
     (Num (6 / 100000000)) (Num 1))%fl /\
  (analytic_power (Num 1800) (Num (2 / 10)) (Num (15 / 100))
     (Num (6 / 100000000)) (Num 1) <=
   analytic_power (Num 3600) (Num (2 / 10)) (Num (15 / 100))
     (Num (6 / 100000000)) (Num 1))%fl /\
  (analytic_power (Num 1800) (Num (2 / 10)) (Num (15 / 100))
     (Num (6 / 100000000)) (Num 1) <=
   analytic_power (Num 1800) (Num (2 / 10)) (Num (15 / 100))
     (Num (5 / 100)) (Num 1))%fl.
Proof.
  assert (H : valid_input 1800 (2 / 10) (15 / 100) (6 / 100000000) 1)
    by (unfold valid_input; lra).
  destruct (analytic_power_monotone _ _ _ _ _ H) as (Hb & Hn & Hp).
  split; [exact H|]. split; [|split].
  - apply Hb. rewrite Rabs_Ropp, !Rabs_pos_eq; lra.
  - apply Hn. lra.
  - apply Hp; lra.
Defined.

(** C3. On every valid input the returned power is a real number in the
    closed interval [[0, 1]]. *)
Theorem analytic_power_in_unit_interval (n maf beta p_thr sigma : R) :
  valid_input n maf beta p_thr sigma ->
  exists r : R,
    analytic_power (Num n) (Num maf) (Num beta) (Num p_thr) (Num sigma) = Num r
    /\ 0 <= r <= 1.
Proof.
  intros Hv. pose proof Hv as (Hn & Hmaf & Hp & Hs).
  eexists. split.
  - apply analytic_power_real. now apply valid_input_real_domain.
  - split.
    + left. apply two_sided_power_pos.
    + apply two_sided_power_le_1, std_normal_isf_nonneg. lra.
Qed.

Lemma analytic_power_in_unit_interval_witness :
  valid_input 1800 (2 / 10) (24 / 100) (6 / 100000000) 1 /\
  exists r : R,
    analytic_power (Num 1800) (Num (2 / 10)) (Num (24 / 100))
      (Num (6 / 100000000)) (Num 1) = Num r
    /\ 0 <= r <= 1.
Proof.
  assert (H : valid_input 1800 (2 / 10) (24 / 100) (6 / 100000000) 1)
    by (unfold valid_input; lra).
  split; [exact H | exact (analytic_power_in_unit_interval _ _ _ _ _ H)].
Defined.

(** C4. Whenever the non-centrality parameter is zero, that is when
    [beta = 0] with valid [n] and [maf], or [maf = 0], or [maf = 1], or
    [n = 0], the returned power equals [p_thr]. *)
Theorem analytic_power_null (n maf beta p_thr sigma : R) :
  0 < p_thr < 1 -> 0 < sigma ->
  (beta = 0 /\ 0 <= n /\ 0 < maf <= 1 / 2) \/ maf = 0 \/ maf = 1 \/ n = 0 ->
  analytic_power (Num n) (Num maf) (Num beta) (Num p_thr) (Num sigma) =
  Num p_thr.
Proof.
  intros Hp Hs Hcase.
  destruct (ncp_null n maf beta sigma Hcase) as [Hdom Hncp].
  rewrite analytic_power_real by (unfold real_domain; repeat split; lra).
  rewrite Hncp, two_sided_power_null, std_normal_sf_isf by lra.
  f_equal. field.
Qed.

Lemma analytic_power_null_witness :
  analytic_power (Num 1800) (Num (2 / 10)) (Num 0) (Num (6 / 100000000))
    (Num 1) = Num (6 / 100000000)
  /\ analytic_power (Num 1800) (Num 0) (Num (24 / 100)) (Num (6 / 100000000))
       (Num 1) = Num (6 / 100000000)
  /\ analytic_power (Num 1800) (Num 1) (Num (24 / 100)) (Num (6 / 100000000))
       (Num 1) = Num (6 / 100000000)
  /\ analytic_power (Num 0) (Num (2 / 10)) (Num (24 / 100))
       (Num (6 / 100000000)) (Num 1) = Num (6 / 100000000).
Proof.
  repeat split.
  - apply analytic_power_null; [lra | lra | left; lra].
  - apply analytic_power_null; [lra | lra | right; left; reflexivity].
  - apply analytic_power_null; [lra | lra | right; right; left; reflexivity].
  - apply analytic_power_null; [lra | lra | right; right; right; reflexivity].
Defined.






(** C6. The power is symmetric in the sign of the effect size, for every
    real [beta] and whatever the other arguments. *)
Theorem analytic_power_symmetric (n maf p_thr sigma : npfloat) (beta : R) :
  analytic_power n maf (Num (- beta)) p_thr sigma =
  analytic_power n maf (Num beta) p_thr sigma.
Proof.
  change (Num (- beta)) with (- Num beta)%fl.
  unfold analytic_power. cbv zeta.
  rewrite float_mul_opp_l, float_div_opp_l.
  apply float_tails_opp.
Qed.

(** ** The concrete scenario [n = 1800], [maf = 0.20], [p_thr = 6e-8] *)

Lemma scenario_ncp beta :
  beta * sqrt (1800 * (2 * (2 / 10) * (1 - 2 / 10))) / 1 = beta * 24.
Proof.
  replace (1800 * (2 * (2 / 10) * (1 - 2 / 10))) with (24 * 24) by field.
  rewrite sqrt_square by lra. field.
Qed.

Lemma scenario_real beta :
  analytic_power (Num 1800) (Num (2 / 10)) (Num beta) (Num (6 / 100000000))
    (Num 1) =
  Num (two_sided_power (std_normal_isf (3 / 100000000)) (beta * 24)).
Proof.
  rewrite analytic_power_real by (unfold real_domain; repeat split; lra).
  rewrite scenario_ncp.
  replace (6 / 100000000 / 2) with (3 / 100000000) by field.
  reflexivity.
Qed.

Lemma scenario_power_024 :
  58 / 100 < two_sided_power (std_normal_isf (3 / 100000000)) (24 / 100 * 24)
  < 68 / 100.
Proof.
  destruct z_cut_genome_wide as [Hlo Hhi].
  unfold two_sided_power.
  set (z := std_normal_isf (3 / 100000000)) in *.
  split.
  - pose proof (std_normal_cdf_pos (- z - 24 / 100 * 24)).
    assert (Hlt : z - 24 / 100 * 24 < - (26 / 100)) by lra.
    apply std_normal_sf_decr in Hlt.
    rewrite std_normal_sf_opp in Hlt.
    pose proof std_normal_cdf_026. lra.
  - assert (H1 : - (43 / 100) < z - 24 / 100 * 24) by lra.
    assert (H2 : 55 / 10 < z + 24 / 100 * 24) by lra.
    apply std_normal_sf_decr in H1, H2.
    rewrite std_normal_sf_opp in H1.
    rewrite <- (std_normal_sf_opp (- z - 24 / 100 * 24)).
    replace (- (- z - 24 / 100 * 24)) with (z + 24 / 100 * 24) by ring.
    pose proof std_normal_cdf_043. pose proof std_normal_sf_55. lra.
Qed.

Lemma scenario_power_015 :
  0 < two_sided_power (std_normal_isf (3 / 100000000)) (15 / 100 * 24) < 1 / 2.
Proof.
  destruct z_cut_genome_wide as [Hlo Hhi].
  split; [apply two_sided_power_pos|].
  unfold two_sided_power.
  set (z := std_normal_isf (3 / 100000000)) in *.
  assert (H1 : 12 / 10 < z - 15 / 100 * 24) by lra.
  assert (H2 : 12 / 10 < z + 15 / 100 * 24) by lra.
  apply std_normal_sf_decr in H1, H2.
  rewrite <- (std_normal_sf_opp (- z - 15 / 100 * 24)).
  replace (- (- z - 15 / 100 * 24)) with (z + 15 / 100 * 24) by ring.
  pose proof std_normal_sf_12. lra.
Qed.

(** C7, counterexample.  At [n = 1800], [maf = 0.20], [beta = 0.24],
    [p_thr = 6e-8], [sigma = 1.0] the returned power is not within [0.05]
    of [0.50]. *)
Lemma scenario_half_power_counterexample :
  exists r : R,
    analytic_power (Num 1800) (Num (2 / 10)) (Num (24 / 100))
      (Num (6 / 100000000)) (Num 1) = Num r
    /\ ~ Rabs (r - 50 / 100) <= 5 / 100.
Proof.
  eexists. split; [apply scenario_real|].
  pose proof scenario_power_024 as [Hlo _].
  intros Habs. eapply Rle_trans in Habs; [|apply Rle_abs]. lra.
Qed.

(** C7, amended.  At [n = 1800], [maf = 0.20], [p_thr = 6e-8],
    [sigma = 1.0] the power returned for [beta = 0.24] is within [0.05] of
    [0.63], and the power returned for [beta = 0.15] lies strictly between
    [0] and [0.5]. *)
Theorem scenario_power_bounds :
  (exists r : R,
     analytic_power (Num 1800) (Num (2 / 10)) (Num (24 / 100))
       (Num (6 / 100000000)) (Num 1) = Num r
     /\ Rabs (r - 63 / 100) <= 5 / 100)
  /\
  (exists r : R,
     analytic_power (Num 1800) (Num (2 / 10)) (Num (15 / 100))
       (Num (6 / 100000000)) (Num 1) = Num r
     /\ 0 < r < 5 / 10).
Proof.
  split; eexists; (split; [apply scenario_real|]).
  - pose proof scenario_power_024. apply Rabs_le. lra.
  - pose proof scenario_power_015. lra.
Qed.







(** ** Further properties of the power *)

Lemma analytic_power_power_real n maf beta p_thr sigma :
  real_domain n maf beta p_thr sigma ->
  analytic_power (Num n) (Num maf) (Num beta) (Num p_thr) (Num sigma) =
  Num (power_real n maf beta p_thr sigma).
Proof. apply analytic_power_real. Qed.

Lemma var_pos_domain n maf beta p_thr sigma :
  0 <= n -> 0 <= maf <= 1 -> 0 < p_thr < 2 -> sigma <> 0 ->
  real_domain n maf beta p_thr sigma.
Proof.
  intros Hn Hmaf Hp Hs. unfold real_domain. repeat split; try lra.
  apply Rmult_le_pos; [apply Rmult_le_pos|]; lra.
Qed.

(** [|ncp|] grows with [|beta|] and with [n * var_g], and shrinks when
    [sigma] grows. *)
Lemma ncp_abs_le b1 b2 v1 v2 s1 s2 :
  Rabs b1 <= Rabs b2 -> 0 <= v1 <= v2 -> 0 < s2 <= s1 ->
  Rabs (b1 * sqrt v1 / s1) <= Rabs (b2 * sqrt v2 / s2).
Proof.
  intros Hb Hv Hs.
  assert (Hsq : sqrt v1 <= sqrt v2) by (apply sqrt_le_1_alt; lra).
  pose proof (sqrt_pos v1) as H1.
  assert (Hi : 0 < / s1 <= / s2).
  { split; [apply Rinv_0_lt_compat; lra|].
    apply Rinv_le_contravar; lra. }
  unfold Rdiv. rewrite !Rabs_mult.
  rewrite (Rabs_pos_eq (/ s1)), (Rabs_pos_eq (/ s2)) by lra.
  rewrite !(Rabs_pos_eq (sqrt _)) by apply sqrt_pos.
  apply Rmult_le_compat; [|lra| |lra].
  - apply Rmult_le_pos; [apply Rabs_pos | exact H1].
  - apply Rmult_le_compat; [apply Rabs_pos | exact H1 | exact Hb | exact Hsq].
Qed.








(** X3. With the other inputs valid, the power does not increase when the
    noise scale [sigma] grows. *)
Theorem analytic_power_antitone_sigma (n maf beta p_thr sigma sigma' : R) :
  valid_input n maf beta p_thr sigma -> sigma <= sigma' ->
  (analytic_power (Num n) (Num maf) (Num beta) (Num p_thr) (Num sigma') <=
   analytic_power (Num n) (Num maf) (Num beta) (Num p_thr) (Num sigma))%fl.
Proof.
  intros (Hn & Hmaf & Hp & Hs) Hss.
  assert (Hz : 0 <= std_normal_isf (p_thr / 2))
    by (apply std_normal_isf_nonneg; lra).
  rewrite !analytic_power_real by (apply var_pos_domain; lra).
  cbn. apply two_sided_power_mono_abs; [exact Hz|].
  apply ncp_abs_le; [lra | | lra].
  split; [|lra].
  apply Rmult_le_pos; [lra|]. apply Rmult_le_pos; lra.
Qed.

Lemma analytic_power_antitone_sigma_witness :
  valid_input 1800 (2 / 10) (24 / 100) (6 / 100000000) 1 /\
  (analytic_power (Num 1800) (Num (2 / 10)) (Num (24 / 100))
     (Num (6 / 100000000)) (Num 2) <=
   analytic_power (Num 1800) (Num (2 / 10)) (Num (24 / 100))
     (Num (6 / 100000000)) (Num 1))%fl.
Proof.
  assert (H : valid_input 1800 (2 / 10) (24 / 100) (6 / 100000000) 1)
    by (unfold valid_input; lra).
  split; [exact H|].
  apply (analytic_power_antitone_sigma _ _ _ _ 1 2 H). lra.
Defined.




Lemma var_g_pos n maf : 0 < n -> 0 < maf < 1 -> 0 < n * (2 * maf * (1 - maf)).
Proof.
  intros Hn Hmaf. apply Rmult_lt_0_compat; [exact Hn|].
  apply Rmult_lt_0_compat; lra.
Qed.

Lemma ncp_real_abs n maf beta sigma :
  0 < sigma ->
  Rabs (ncp_real n maf beta sigma) =
  Rabs beta * (sqrt (n * (2 * maf * (1 - maf))) / sigma).
Proof.
  intros Hs. unfold ncp_real, Rdiv.
  rewrite !Rabs_mult, (Rabs_pos_eq (sqrt _)) by apply sqrt_pos.
  rewrite (Rabs_pos_eq (/ sigma)) by (left; now apply Rinv_0_lt_compat).
  ring.
Qed.

Lemma scale_pos n maf sigma :
  0 < n -> 0 < maf < 1 -> 0 < sigma ->
  0 < sqrt (n * (2 * maf * (1 - maf))) / sigma.
Proof.
  intros Hn Hmaf Hs. apply Rdiv_lt_0_compat; [|exact Hs].
  apply sqrt_lt_R0. now apply var_g_pos.
Qed.



(** The power tends to [1] when [|ncp|] grows. *)
Lemma two_sided_power_large z eps :
  0 < eps -> exists L : R, 0 < L /\
    forall l : R, L <= Rabs l -> 1 - eps < two_sided_power z l.
Proof.
  intros Heps.
  destruct (std_normal_sf_small eps Heps) as [b Hb].
  exists (Rabs (z + b) + 1). split; [pose proof (Rabs_pos (z + b)); lra|].
  intros l Hl. rewrite <- two_sided_power_abs.
  unfold two_sided_power.
  pose proof (std_normal_cdf_pos (- z - Rabs l)).
  assert (Hlt : z - Rabs l < - b).
  { pose proof (Rle_abs (z + b)). lra. }
  apply std_normal_sf_decr in Hlt.
  rewrite std_normal_sf_opp in Hlt.
  rewrite std_normal_sf_cdf in Hb. lra.
Qed.

(** X5. The power tends to [1]: for a positive sample size and [maf]
    strictly inside [(0, 1)], any level below [1] is exceeded by every
    effect size large enough in magnitude, and for a non-zero effect by
    every sample size large enough. *)
Theorem analytic_power_tends_to_one (maf p_thr sigma eps : R) :
  0 < maf < 1 -> 0 < p_thr < 1 -> 0 < sigma -> 0 < eps ->
  (forall n : R, 0 < n ->
     exists B : R, forall beta : R, B <= Rabs beta ->
       exists r : R,
         analytic_power (Num n) (Num maf) (Num beta) (Num p_thr) (Num sigma)
         = Num r /\ 1 - eps < r)
  /\
  (forall beta : R, beta <> 0 ->
     exists N : R, forall n : R, N <= n ->
       exists r : R,
         analytic_power (Num n) (Num maf) (Num beta) (Num p_thr) (Num sigma)
         = Num r /\ 1 - eps < r).
Proof.
  intros Hmaf Hp Hs Heps.
  destruct (two_sided_power_large (std_normal_isf (p_thr / 2)) eps Heps)
    as (L & HL0 & HL).
  split.
  - intros n Hn.
    pose proof (scale_pos n maf sigma Hn Hmaf Hs) as Hk.
    exists (L / (sqrt (n * (2 * maf * (1 - maf))) / sigma)).
    intros beta Hb.
    exists (power_real n maf beta p_thr sigma).
    split; [apply analytic_power_power_real, var_pos_domain; lra|].
    apply HL. rewrite ncp_real_abs by exact Hs.
    apply (Rmult_le_compat_r _ _ _ (Rlt_le _ _ Hk)) in Hb.
    unfold Rdiv at 1 in Hb. rewrite Rmult_assoc, Rinv_l in Hb; lra.
  - intros beta Hbeta.
    assert (Hab : 0 < Rabs beta) by now apply Rabs_pos_lt.
    assert (Hv : 0 < 2 * maf * (1 - maf)) by (apply Rmult_lt_0_compat; lra).
    set (t := L * sigma / Rabs beta).
    assert (Ht : 0 < t).
    { unfold t. apply Rdiv_lt_0_compat; [|exact Hab].
      apply Rmult_lt_0_compat; assumption. }
    exists (1 + t * t / (2 * maf * (1 - maf))).
    intros n Hn.
    assert (Htt : 0 < t * t / (2 * maf * (1 - maf))).
    { apply Rdiv_lt_0_compat; [|exact Hv]. now apply Rmult_lt_0_compat. }
    assert (Hn0 : 0 < n) by lra.
    exists (power_real n maf beta p_thr sigma).
    split; [apply analytic_power_power_real, var_pos_domain; lra|].
    apply HL. rewrite ncp_real_abs by exact Hs.
    assert (Hsq : t <= sqrt (n * (2 * maf * (1 - maf)))).
    { rewrite <- (sqrt_square t) by lra.
      apply sqrt_le_1_alt.
      apply Rle_trans with (t * t / (2 * maf * (1 - maf)) * (2 * maf * (1 - maf))).
      - right. field. lra.
      - apply Rmult_le_compat_r; lra. }
    apply Rle_trans with (Rabs beta * (t / sigma)).
    + right. unfold t. field. split; lra.
    + apply Rmult_le_compat_l; [lra|].
      unfold Rdiv. apply Rmult_le_compat_r; [|exact Hsq].
      left. now apply Rinv_0_lt_compat.
Qed.

Lemma analytic_power_tends_to_one_witness :
  (exists B : R, forall beta : R, B <= Rabs beta ->
     exists r : R,
       analytic_power (Num 1800) (Num (2 / 10)) (Num beta)
         (Num (6 / 100000000)) (Num 1) = Num r /\ 1 - 1 / 100 < r)
  /\
  (exists N : R, forall n : R, N <= n ->
     exists r : R,
       analytic_power (Num n) (Num (2 / 10)) (Num (15 / 100))
         (Num (6 / 100000000)) (Num 1) = Num r /\ 1 - 1 / 100 < r).
Proof.
  assert (H1 : 0 < 2 / 10 < 1) by lra.
  assert (H2 : 0 < 6 / 100000000 < 1) by lra.
  assert (H3 : 0 < 1) by lra.
  assert (H4 : 0 < 1 / 100) by lra.
  destruct (analytic_power_tends_to_one (2 / 10) (6 / 100000000) 1 (1 / 100)
              H1 H2 H3 H4) as [Hb Hn].
  split; [apply Hb; lra | apply Hn; lra].
Defined.



(** ** Scaling and edge values *)

(** The function reads [n], [maf], [beta] and [sigma] through [ncp_of]. *)
Lemma analytic_power_ncp_of n maf beta p_thr sigma :
  analytic_power n maf beta p_thr sigma =
  (norm_sf (norm_isf (p_thr / Num 2) - ncp_of n maf beta sigma)
   + norm_cdf (- norm_isf (p_thr / Num 2) - ncp_of n maf beta sigma))%fl.
Proof. reflexivity. Qed.



Lemma real_threshold p_thr :
  0 < p_thr < 2 ->
  norm_isf (Num p_thr / Num 2) = Num (std_normal_isf (p_thr / 2)).
Proof. intros Hp. float_dec. reflexivity. Qed.

(** An infinite non-centrality parameter gives power one. *)
Lemma infinite_ncp_power (z : R) (ncp : npfloat) :
  ncp = PosInf \/ ncp = NegInf ->
  (norm_sf (Num z - ncp) + norm_cdf (- Num z - ncp))%fl = Num 1.
Proof. intros [-> | ->]; cbn; f_equal; ring. Qed.

(** X8. Division by [sigma = 0] raises nothing: with a threshold in
    [(0, 2)], a positive [n] and [maf] inside [(0, 1)], the function returns
    exactly [1] when the effect is non-zero and [nan] when it is zero. *)
Theorem analytic_power_zero_sigma (n maf beta p_thr : R) :
  0 < n -> 0 < maf < 1 -> 0 < p_thr < 2 ->
  (beta <> 0 ->
   analytic_power (Num n) (Num maf) (Num beta) (Num p_thr) (Num 0) = Num 1)
  /\
  (beta = 0 ->
   analytic_power (Num n) (Num maf) (Num beta) (Num p_thr) (Num 0) = NaN).
Proof.
  intros Hn Hmaf Hp.
  pose proof (var_g_pos n maf Hn Hmaf) as Hv.
  replace (1 - maf) with (1 + - maf) in Hv by ring.
  pose proof (sqrt_lt_R0 _ Hv) as Hs.
  rewrite analytic_power_ncp_of, real_threshold by exact Hp.
  assert (E : ncp_of (Num n) (Num maf) (Num beta) (Num 0) =
              Float.signed_inf (beta * sqrt (n * (2 * maf * (1 + - maf))))).
  { unfold ncp_of. cbn.
    destruct (Rlt_dec (n * (2 * maf * (1 + - maf))) 0); [lra|]. cbn.
    destruct (Req_dec_T 0 0); [reflexivity | lra]. }
  rewrite E. split; intros Hb.
  - apply infinite_ncp_power. unfold Float.signed_inf.
    destruct (Rlt_dec 0 (beta * sqrt (n * (2 * maf * (1 + - maf)))))
      as [_ | Hn1]; [now left|].
    destruct (Rlt_dec (beta * sqrt (n * (2 * maf * (1 + - maf)))) 0)
      as [_ | Hn2]; [now right|].
    exfalso.
    assert (beta * sqrt (n * (2 * maf * (1 + - maf))) = 0) by lra.
    apply Rmult_integral in H. lra.
  - subst beta. unfold Float.signed_inf. rewrite Rmult_0_l.
    destruct (Rlt_dec 0 0); [lra|]. reflexivity.
Qed.

Lemma analytic_power_zero_sigma_witness :
  analytic_power (Num 1800) (Num (2 / 10)) (Num (24 / 100))
    (Num (6 / 100000000)) (Num 0) = Num 1
  /\
  analytic_power (Num 1800) (Num (2 / 10)) (Num 0)
    (Num (6 / 100000000)) (Num 0) = NaN.
Proof.
  assert (H1 : 0 < 1800) by lra.
  assert (H2 : 0 < 2 / 10 < 1) by lra.
  assert (H3 : 0 < 6 / 100000000 < 2) by lra.
  split.
  - apply (proj1 (analytic_power_zero_sigma 1800 (2 / 10) (24 / 100)
                    (6 / 100000000) H1 H2 H3)). lra.
  - apply (proj2 (analytic_power_zero_sigma 1800 (2 / 10) 0
                    (6 / 100000000) H1 H2 H3)). reflexivity.
Defined.

Lemma real_ncp n maf beta sigma :
  0 <= n * maf * (1 - maf) -> sigma <> 0 ->
  ncp_of (Num n) (Num maf) (Num beta) (Num sigma) =
  Num (ncp_real n maf beta sigma).
Proof.
  intros Hv Hs. unfold ncp_of, ncp_real.
  assert (0 <= n * (2 * maf * (1 - maf))) by lra.
  float_dec. reflexivity.
Qed.

(** X9. The threshold at the ends of its range, the non-centrality
    parameter being a real number: [p_thr = 1] gives power [1], [p_thr = 0]
    gives [0], [p_thr = 2] gives [2], and a threshold below [0] or above [2]
    gives [nan]. *)
Theorem analytic_power_threshold_edges (n maf beta sigma : R) :
  0 <= n * maf * (1 - maf) -> sigma <> 0 ->
  analytic_power (Num n) (Num maf) (Num beta) (Num 1) (Num sigma) = Num 1
  /\ analytic_power (Num n) (Num maf) (Num beta) (Num 0) (Num sigma) = Num 0
  /\ analytic_power (Num n) (Num maf) (Num beta) (Num 2) (Num sigma) = Num 2
  /\ (forall p_thr : R, p_thr < 0 \/ 2 < p_thr ->
      analytic_power (Num n) (Num maf) (Num beta) (Num p_thr) (Num sigma) = NaN).
Proof.
  intros Hv Hs.
  split; [|split; [|split]].
  - rewrite analytic_power_real by (unfold real_domain; repeat split; lra).
    rewrite std_normal_isf_half. unfold two_sided_power. f_equal.
    set (l := beta * sqrt (n * (2 * maf * (1 - maf))) / sigma).
    replace (0 - l) with (- l) by ring. replace (- 0 - l) with (- l) by ring.
    rewrite std_normal_sf_opp, std_normal_cdf_opp, std_normal_sf_cdf. ring.
  - rewrite analytic_power_ncp_of, real_ncp by assumption.
    float_dec; first [reflexivity | f_equal; ring].
  - rewrite analytic_power_ncp_of, real_ncp by assumption.
    float_dec; first [reflexivity | f_equal; ring].
  - intros p_thr Hp.
    rewrite analytic_power_ncp_of, real_ncp by assumption.
    destruct Hp; float_dec; reflexivity.
Qed.

Lemma analytic_power_threshold_edges_witness :
  analytic_power (Num 1800) (Num (2 / 10)) (Num (24 / 100)) (Num 1) (Num 1)
  = Num 1
  /\ analytic_power (Num 1800) (Num (2 / 10)) (Num (24 / 100)) (Num 0) (Num 1)
     = Num 0
  /\ analytic_power (Num 1800) (Num (2 / 10)) (Num (24 / 100)) (Num 2) (Num 1)
     = Num 2
  /\ analytic_power (Num 1800) (Num (2 / 10)) (Num (24 / 100)) (Num (- 1))
       (Num 1) = NaN.
Proof.
  assert (H1 : 0 <= 1800 * (2 / 10) * (1 - 2 / 10)) by lra.
  assert (H2 : 1 <> 0) by lra.
  destruct (analytic_power_threshold_edges 1800 (2 / 10) (24 / 100) 1 H1 H2)
    as (E1 & E0 & E2 & En).
  repeat split; try assumption.
  apply En. lra.
Defined.

(** X10. A [nan] argument is never absorbed: if any of the five arguments
    is [nan], so is the result. *)
Theorem analytic_power_nan_in (n maf beta p_thr sigma : npfloat) :
  n = NaN \/ maf = NaN \/ beta = NaN \/ p_thr = NaN \/ sigma = NaN ->
  analytic_power n maf beta p_thr sigma = NaN.
Proof.
  assert (Hncp : forall z, ncp_of n maf beta sigma = NaN ->
            (norm_sf (z - ncp_of n maf beta sigma)
             + norm_cdf (- z - ncp_of n maf beta sigma))%fl = NaN).
  { intros z ->. destruct z; reflexivity. }
  rewrite analytic_power_ncp_of.
  intros [-> | [-> | [-> | [-> | ->]]]].
  - apply Hncp. unfold ncp_of. cbn. destruct beta, sigma; reflexivity.
  - apply Hncp. unfold ncp_of. cbn.
    assert (E : (n * NaN)%fl = NaN) by (destruct n; reflexivity).
    rewrite E. cbn. destruct beta, sigma; reflexivity.
  - apply Hncp. unfold ncp_of.
    destruct (Float.sqrt (n * (Num 2 * maf * (Num 1 - maf)))), sigma;
      reflexivity.
  - cbn. destruct (ncp_of n maf beta sigma); reflexivity.
  - apply Hncp. unfold ncp_of.
    destruct (beta * Float.sqrt (n * (Num 2 * maf * (Num 1 - maf))))%fl;
      reflexivity.
Qed.

Lemma analytic_power_nan_in_witness :
  analytic_power (Num 1800) NaN (Num (24 / 100)) (Num (6 / 100000000)) (Num 1)
  = NaN.
Proof. apply analytic_power_nan_in. right. left. reflexivity. Defined.



Lemma float_div_opp_r (a : npfloat) (s : R) :
  s <> 0 -> (a / Num (- s) = - (a / Num s))%fl.
Proof.
  intros Hs. destruct a; cbn; float_dec; try reflexivity.
  f_equal. field. exact Hs.
Qed.

(** X12. The sign of [sigma] is not looked at: a negative noise scale is
    accepted and gives the power of its absolute value. *)
Theorem analytic_power_sigma_sign (n maf beta p_thr : npfloat) (sigma : R) :
  sigma <> 0 ->
  analytic_power n maf beta p_thr (Num (- sigma)) =
  analytic_power n maf beta p_thr (Num sigma).
Proof.
  intros Hs. rewrite !analytic_power_ncp_of. unfold ncp_of.
  rewrite float_div_opp_r by exact Hs.
  apply float_tails_opp.
Qed.

Lemma analytic_power_sigma_sign_witness :
  analytic_power (Num 1800) (Num (2 / 10)) (Num (24 / 100))
    (Num (6 / 100000000)) (Num (- 1)) =
  analytic_power (Num 1800) (Num (2 / 10)) (Num (24 / 100))
    (Num (6 / 100000000)) (Num 1).
Proof. apply analytic_power_sigma_sign. lra. Defined.

(** ** The sweeps and the grids *)


















Lemma arange_beta_grid :
  exists l : list R,
    np_arange 0 (41 / 100) (2 / 100) = Some l /\ map Num l = beta_grid.
Proof.
  unfold np_arange. destruct (Req_dec_T (2 / 100) 0) as [E | _]; [lra|].
  eexists. split; [reflexivity|].
  rewrite (Zceil_eq 21) by (split; simpl; lra).
  unfold beta_grid. rewrite map_map. reflexivity.
Qed.





(** X17. An infinite sample size or an infinite effect raises nothing:
    with [maf] inside [(0, 1)], a threshold in [(0, 2)] and a positive
    [sigma], the function returns exactly [1] for [n = inf] and a non-zero
    effect, and for [beta = inf] or [beta = -inf] and a positive [n]. *)
Theorem analytic_power_infinite (maf p_thr sigma : R) :
  0 < maf < 1 -> 0 < p_thr < 2 -> 0 < sigma ->
  (forall beta : R, beta <> 0 ->
     analytic_power PosInf (Num maf) (Num beta) (Num p_thr) (Num sigma) = Num 1)
  /\
  (forall n : R, 0 < n ->
     analytic_power (Num n) (Num maf) PosInf (Num p_thr) (Num sigma) = Num 1
     /\ analytic_power (Num n) (Num maf) NegInf (Num p_thr) (Num sigma) = Num 1).
Proof.
  intros Hmaf Hp Hs.
  assert (Hv : 0 < 2 * maf * (1 + - maf)) by (apply Rmult_lt_0_compat; lra).
  split.
  - intros beta Hb.
    rewrite analytic_power_ncp_of, real_threshold by exact Hp.
    apply infinite_ncp_power. unfold ncp_of. cbn. unfold Float.signed_inf.
    destruct (Rlt_dec 0 (2 * maf * (1 + - maf))); [|lra]. cbn.
    destruct (Rtotal_order 0 beta) as [H | [H | H]]; [| lra |].
    + left. float_dec. reflexivity.
    + right. float_dec. reflexivity.
  - intros n Hn.
    assert (Hnv : 0 < n * (2 * maf * (1 + - maf)))
      by now apply Rmult_lt_0_compat.
    pose proof (sqrt_lt_R0 _ Hnv) as Hsq.
    split; rewrite analytic_power_ncp_of, real_threshold by exact Hp;
      apply infinite_ncp_power; unfold ncp_of; cbn;
      (destruct (Rlt_dec (n * (2 * maf * (1 + - maf))) 0); [lra|]);
      cbn; unfold Float.signed_inf.
    + left. float_dec. reflexivity.
    + right. float_dec. reflexivity.
Qed.

Lemma analytic_power_infinite_witness :
  analytic_power PosInf (Num (2 / 10)) (Num (15 / 100)) (Num (6 / 100000000))
    (Num 1) = Num 1
  /\ analytic_power (Num 1800) (Num (2 / 10)) NegInf (Num (6 / 100000000))
       (Num 1) = Num 1.
Proof.
  assert (H1 : 0 < 2 / 10 < 1) by lra.
  assert (H2 : 0 < 6 / 100000000 < 2) by lra.
  assert (H3 : 0 < 1) by lra.
  destruct (analytic_power_infinite (2 / 10) (6 / 100000000) 1 H1 H2 H3)
    as [Hn Hb].
  split; [apply Hn; lra | apply (Hb 1800); lra].
Defined.



Lemma std_normal_isf_compl q :
  0 < q < 1 -> std_normal_isf (1 - q) = - std_normal_isf q.
Proof.
  intros Hq. apply std_normal_sf_inj.
  rewrite std_normal_sf_isf by lra.
  rewrite std_normal_sf_opp, <- (std_normal_sf_isf q) at 1 by lra.
  rewrite std_normal_sf_cdf. ring.
Qed.

(** X19. A threshold above [1] mirrors one below: with a real
    non-centrality parameter and [p_thr] in [(0, 2)], the values returned
    for [p_thr] and for [2 - p_thr] add up to [2]. *)
Theorem analytic_power_threshold_mirror (n maf beta p_thr sigma : R) :
  0 <= n * maf * (1 - maf) -> sigma <> 0 -> 0 < p_thr < 2 ->
  exists r : R,
    analytic_power (Num n) (Num maf) (Num beta) (Num p_thr) (Num sigma) = Num r
    /\ analytic_power (Num n) (Num maf) (Num beta) (Num (2 - p_thr)) (Num sigma)
       = Num (2 - r).
Proof.
  intros Hv Hs Hp.
  exists (power_real n maf beta p_thr sigma).
  split; [apply analytic_power_power_real; unfold real_domain; lra|].
  rewrite analytic_power_power_real by (unfold real_domain; lra).
  f_equal. unfold power_real.
  replace ((2 - p_thr) / 2) with (1 - p_thr / 2) by field.
  rewrite std_normal_isf_compl by lra.
  set (z := std_normal_isf (p_thr / 2)). set (l := ncp_real n maf beta sigma).
  unfold two_sided_power.
  rewrite (std_normal_sf_cdf (- z - l)), (std_normal_sf_cdf (z - l)).
  rewrite <- (std_normal_sf_opp (- - z - l)).
  replace (- (- - z - l)) with (- z + l) by ring.
  rewrite <- (std_normal_sf_opp (- z - l)).
  replace (- (- z - l)) with (z + l) by ring.
  rewrite <- (std_normal_cdf_opp (z + l)), <- (std_normal_cdf_opp (- z + l)).
  replace (- (z + l)) with (- z - l) by ring.
  replace (- (- z + l)) with (z - l) by ring.
  ring.
Qed.

Lemma analytic_power_threshold_mirror_witness :
  exists r : R,
    analytic_power (Num 1800) (Num (2 / 10)) (Num (24 / 100)) (Num (5 / 10))
      (Num 1) = Num r
    /\ analytic_power (Num 1800) (Num (2 / 10)) (Num (24 / 100))
         (Num (2 - 5 / 10)) (Num 1) = Num (2 - r).
Proof. apply analytic_power_threshold_mirror; lra. Defined.
